(** * Mnemonic normalisation, language detection and fuzzy correction

    A shallow embedding of [packages/sdk/utils/src/account.ts]
    (celo-monorepo) and the properties of its mnemonic helpers:
    [splitMnemonic], [normalizeMnemonic], [detectLanguage],
    [validateMnemonic], [wordSuggestions], [combineSuggestions] and
    [suggestCorrections].

    Conventions of the embedding.
    - A JavaScript string is the list of its UTF-16 code units
      ([list N]); [utf16] writes an ASCII literal in that form.
    - An optional argument ([language?], [candidates?], a defaulted
      parameter passed [undefined]) is an [option].
    - A generator is the trace of one complete run: the values it yields,
      in order, and whether the run ended with a thrown error ([Gen]).
    - [Map] objects whose iteration order is observed ([SpotSuggestions])
      are entry lists in insertion order; maps and sets that are only
      queried are stdpp's [gmap] and [gset].
    - What the file imports from other packages (the bip39 wordlists and
      validator, [normalizeAccents], [String.prototype.toLowerCase]) is a
      parameter, collected in the class [Imports]. *)

From Stdlib Require Import ZArith NArith Lia String Ascii Sorted Permutation.
From stdpp Require Import base decidable option list sorting gmap sets.

#[local] Set Warnings "-clear-no-such-hyp".

(** ** JavaScript strings and the built-ins of [String.prototype] *)

Abbreviation JsString := (list N).

Definition utf16 (s : string) : JsString :=
  List.map N_of_ascii (list_ascii_of_string s).

Module Js.

(** The code units matched by [\s] in a regular expression, which are
    also the ones [String.prototype.trim] strips: WhiteSpace and
    LineTerminator of ECMA-262. *)
Definition isWhiteSpace (c : N) : bool :=
  (((9 <=? c) && (c <=? 13)) || (c =? 32) || (c =? 160) || (c =? 0x1680)
   || ((0x2000 <=? c) && (c <=? 0x200a)) || (c =? 0x2028) || (c =? 0x2029)
   || (c =? 0x202f) || (c =? 0x205f) || (c =? 0x3000) || (c =? 0xfeff))%N.

Fixpoint skipWhiteSpace (s : JsString) : JsString :=
  match s with
  | [] => []
  | c :: rest => if isWhiteSpace c then skipWhiteSpace rest else s
  end.

(** [s.trim()] *)
Definition trim (s : JsString) : JsString :=
  rev (skipWhiteSpace (rev (skipWhiteSpace s))).

(** [s.split(/\s+/)].  [in_sep] tells that the code unit before the
    current one belongs to a separator already matched, which the greedy
    [\s+] extends.  On the empty string the separator finds no match and
    the result is the one-element array holding the empty string. *)
Fixpoint split_ws_from (in_sep : bool) (s : JsString) : list JsString :=
  match s with
  | [] => [[]]
  | c :: rest =>
      if isWhiteSpace c then
        if in_sep then split_ws_from true rest
        else [] :: split_ws_from true rest
      else
        match split_ws_from false rest with
        | tok :: toks => (c :: tok) :: toks
        | [] => [[c]]
        end
  end.

Definition split_ws (s : JsString) : list JsString := split_ws_from false s.

(** [words.join(sep)] *)
Fixpoint join (sep : JsString) (words : list JsString) : JsString :=
  match words with
  | [] => []
  | [w] => w
  | w :: rest => w ++ sep ++ join sep rest
  end.

(** [new Map(entries)] for a map that is only queried with [get]: a later
    entry with the same key replaces the earlier one. *)
Definition newMap `{Countable K} {V} (entries : list (K * V)) : gmap K V :=
  foldl (fun m kv => <[kv.1 := kv.2]> m) ∅ entries.

(** [new Set(values)] *)
Definition newSet `{Countable K} (values : list K) : gset K :=
  foldl (fun s v => {[v]} ∪ s) ∅ values.

(** [set.has(v)] *)
Definition has `{Countable K} (s : gset K) (v : K) : bool :=
  bool_decide (v ∈ s).

(** [new Map(entries)] for a map whose iteration order is observed: the
    entries in insertion order; a repeated key keeps its first position
    and takes the later value. *)
Fixpoint orderedSet {V} (k : nat) (v : V) (m : list (nat * V)) : list (nat * V) :=
  match m with
  | [] => [(k, v)]
  | (k', v') :: rest =>
      if Nat.eqb k' k then (k, v) :: rest else (k', v') :: orderedSet k v rest
  end.

Definition newOrderedMap {V} (entries : list (nat * V)) : list (nat * V) :=
  foldl (fun m kv => orderedSet kv.1 kv.2 m) [] entries.

(** [array.sort(compareFn)]: the sort is stable (ECMAScript 2019), so for
    a comparator that orders by a key it is the insertion of every element
    before the first element to its right that does not compare smaller. *)
Fixpoint sort_insert {A} (compareFn : A -> A -> Z) (x : A) (l : list A) : list A :=
  match l with
  | [] => [x]
  | y :: rest =>
      if (0 <? compareFn x y)%Z then y :: sort_insert compareFn x rest
      else x :: y :: rest
  end.

Definition sort {A} (compareFn : A -> A -> Z) (l : list A) : list A :=
  foldr (sort_insert compareFn) [] l.

End Js.

(** ** Generators

    The trace of a complete run of a generator: what it yields, and whether
    the run ends with a thrown error ([threw]) or returns. *)

Record Gen (A : Type) := mkGen { yields : list A; threw : bool }.
Arguments mkGen {A} _ _.
Arguments yields {A} _.
Arguments threw {A} _.

Module Gen.

(** [return] *)
Definition ret {A} : Gen A := mkGen [] false.

(** [throw Error(...)] *)
Definition throw {A} : Gen A := mkGen [] true.

(** [yield a] *)
Definition yield {A} (a : A) : Gen A := mkGen [a] false.

(** [g1; g2]: a throw in [g1] ends the run. *)
Definition seq {A} (g1 g2 : Gen A) : Gen A :=
  if threw g1 then g1 else mkGen (yields g1 ++ yields g2) (threw g2).

(** [for (const a of items) body(a)] over an array. *)
Definition for_each {A B} (items : list A) (body : A -> Gen B) : Gen B :=
  foldr (fun a rest => seq (body a) rest) ret items.

(** [for (const a of g) body(a)] over a generator: an error thrown by
    [g] surfaces after the values it yielded were consumed. *)
Definition for_of {A B} (g : Gen A) (body : A -> Gen B) : Gen B :=
  seq (for_each (yields g) body) (mkGen [] (threw g)).

End Gen.

(** ** Languages and imports *)

Inductive MnemonicLanguages : Set :=
  | chinese_simplified
  | chinese_traditional
  | english
  | french
  | italian
  | japanese
  | korean
  | spanish
  | portuguese.

#[global] Instance MnemonicLanguages_eq_dec : EqDecision MnemonicLanguages.
Proof. solve_decision. Defined.

(** The [Bip39] interface of [@celo/base], reduced to the member used here. *)
Module Bip39.
Record t := { validateMnemonic : JsString -> list JsString -> bool }.
End Bip39.

(** What [account.ts] imports from other packages. *)
Class Imports := {
  (** [bip39.wordlists] *)
  bip39_wordlists : MnemonicLanguages -> list JsString;
  (** [bip39.validateMnemonic(mnemonic, wordlist)] *)
  bip39_validateMnemonic : JsString -> list JsString -> bool;
  (** [normalizeAccents] of [@celo/base/lib/string] *)
  normalizeAccents : JsString -> JsString;
  (** [String.prototype.toLowerCase] *)
  toLowerCase : JsString -> JsString;
}.

(** Modelled from the spec: [levenshteinDistance] of [./levenshtein], whose
    source file is missing.  The spec calls it the standard edit distance by
    single-character insertion, deletion and substitution (Levenshtein);
    this is its textbook recursion over code units. *)
Fixpoint levenshtein (a : JsString) : JsString -> nat :=
  match a with
  | [] => fun b => length b
  | x :: a' =>
      fix against (b : JsString) : nat :=
        match b with
        | [] => S (length a')
        | y :: b' =>
            Nat.min (Nat.min (S (levenshtein a' b)) (S (against b')))
                    ((if N.eqb x y then 0 else 1) + levenshtein a' b')
        end
  end.

Definition levenshteinDistance (a b : JsString) : Z := Z.of_nat (levenshtein a b).

(** ** Weights: JavaScript numbers that may be [Infinity] *)

Inductive Weight := Finite (z : Z) | Infinity.

Module Weight.
(** [w < 0] *)
Definition negative (w : Weight) : bool :=
  match w with Finite z => (z <? 0)%Z | Infinity => false end.
(** [d >= w] for a finite [d] *)
Definition reached (d : Z) (w : Weight) : bool :=
  match w with Finite z => (z <=? d)%Z | Infinity => false end.
(** [w - d] for a finite [d] *)
Definition sub (w : Weight) (d : Z) : Weight :=
  match w with Finite z => Finite (z - d) | Infinity => Infinity end.
End Weight.

Record Suggestion := { distance : Z; word : JsString }.

(** Suggestions by distance is a list of suggestion words sorted by distance
    ascending; SpotSuggestions is a number of suggestions keyed by phrase
    index, a [Map] read in insertion order. *)
Abbreviation SuggestionsByDistance := (list Suggestion).
Abbreviation SpotSuggestions := (list (nat * list Suggestion)).

Section Account.
Context `{Imports}.

Definition getWordList (language : option MnemonicLanguages) : list JsString :=
  match default english language with
  | chinese_simplified => bip39_wordlists chinese_simplified
  | chinese_traditional => bip39_wordlists chinese_traditional
  | english => bip39_wordlists english
  | french => bip39_wordlists french
  | italian => bip39_wordlists italian
  | japanese => bip39_wordlists japanese
  | korean => bip39_wordlists korean
  | spanish => bip39_wordlists spanish
  | portuguese => bip39_wordlists portuguese
  end.

Definition getAllLanguages : list MnemonicLanguages :=
  [chinese_simplified; chinese_traditional; english; french; italian;
   japanese; korean; spanish; portuguese].

Definition isLatinBasedLanguage (language : MnemonicLanguages) : bool :=
  match language with
  | english | french | italian | spanish | portuguese => true
  | chinese_simplified | chinese_traditional | japanese | korean => false
  end.

Definition bip39Wrapper : Bip39.t :=
  {| Bip39.validateMnemonic := bip39_validateMnemonic |}.

(** The loop of [validateMnemonic] over [getAllLanguages()], with its
    early [return true]. *)
Fixpoint validateMnemonic_any (bip39ToUse : Bip39.t) (mnemonic : JsString)
    (languages : list MnemonicLanguages) : bool :=
  match languages with
  | [] => false
  | language :: rest =>
      if Bip39.validateMnemonic bip39ToUse mnemonic (getWordList (Some language))
      then true
      else validateMnemonic_any bip39ToUse mnemonic rest
  end.

(** The languages whose word list that loop hands to the validator, in
    call order. *)
Fixpoint validateMnemonic_probes (bip39ToUse : Bip39.t) (mnemonic : JsString)
    (languages : list MnemonicLanguages) : list MnemonicLanguages :=
  match languages with
  | [] => []
  | language :: rest =>
      language ::
        (if Bip39.validateMnemonic bip39ToUse mnemonic (getWordList (Some language))
         then []
         else validateMnemonic_probes bip39ToUse mnemonic rest)
  end.

Definition validateMnemonic (mnemonic : JsString) (bip39ToUse : option Bip39.t)
    (language : option MnemonicLanguages) : bool :=
  let bip39ToUse := default bip39Wrapper bip39ToUse in
  match language with
  | Some language =>
      Bip39.validateMnemonic bip39ToUse mnemonic (getWordList (Some language))
  | None => validateMnemonic_any bip39ToUse mnemonic getAllLanguages
  end.

(** [mnemonic.trim().split(/\s+/)] *)
Definition splitMnemonic (mnemonic : JsString) : list JsString :=
  Js.split_ws (Js.trim mnemonic).

Definition joinMnemonic (words : list JsString)
    (language : option MnemonicLanguages) : JsString :=
  Js.join (if decide (language = Some japanese) then [0x3000%N] else [32%N]) words.

(** The match score of one candidate in [detectLanguage]. *)
Definition languageScore (words : list JsString) (candidate : MnemonicLanguages) : nat :=
  let wordSet := Js.newSet (getWordList (Some candidate)) in
  foldl (fun count word => if Js.has wordSet word then count + 1 else count) 0 words.

(** The reduction of [detectLanguage] to the highest scoring candidates. *)
Definition leadersStep (acc : list MnemonicLanguages * nat)
    (entry : MnemonicLanguages * nat) : list MnemonicLanguages * nat :=
  let '(leaders, leadingScore) := acc in
  let '(candidate, score) := entry in
  if leadingScore <? score then ([candidate], score)
  else if score =? leadingScore then (leaders ++ [candidate], leadingScore)
  else (leaders, leadingScore).

Definition detectLanguage (words : list JsString)
    (candidates : option (list MnemonicLanguages)) : option MnemonicLanguages :=
  let scores :=
    List.map (fun candidate => (candidate, languageScore words candidate))
             (default getAllLanguages candidates) in
  let '(winners, highscore) := foldl leadersStep ([], 0) scores in
  if negb (length winners =? 1) || (highscore <? 1) then None
  else head winners.

Definition formatNonAccentedCharacters (words : list JsString)
    (language : MnemonicLanguages) : list JsString :=
  if isLatinBasedLanguage language then
    let wordList := getWordList (Some language) in
    let normalizedWordMap :=
      Js.newMap (List.map (fun word => (normalizeAccents word, word)) wordList) in
    List.map (fun word => default word (normalizedWordMap !! normalizeAccents word)) words
  else words.

Definition normalizeMnemonic (mnemonic : JsString)
    (language : option MnemonicLanguages) : JsString :=
  let words := splitMnemonic mnemonic in
  let lowered := List.map toLowerCase words in
  let detectedLanguage :=
    match language with
    | Some l => Some l
    | None => detectLanguage lowered None
    end in
  match detectedLanguage with
  | None => joinMnemonic lowered None
  | Some l => joinMnemonic (formatNonAccentedCharacters lowered l) (Some l)
  end.

(** ** The suggestion engine *)

Definition wordSuggestions (typo : JsString) (language : MnemonicLanguages)
    : SuggestionsByDistance :=
  Js.sort (fun a b => (distance a - distance b)%Z)
    (List.map (fun word => {| distance := levenshteinDistance typo word; word := word |})
              (getWordList (Some language))).

(** The first loop of [suggestionsInRange]: skip the suggestions below the
    weight range minimum. *)
Fixpoint skipBelow (minWeight : Weight) (suggestions : SuggestionsByDistance)
    : SuggestionsByDistance :=
  match suggestions with
  | [] => []
  | s :: rest =>
      if Weight.reached (distance s) minWeight then suggestions
      else skipBelow minWeight rest
  end.

(** Its second loop: yield until a suggestion reaches the maximum. *)
Fixpoint yieldBelow (maxWeight : Weight) (suggestions : SuggestionsByDistance)
    : SuggestionsByDistance :=
  match suggestions with
  | [] => []
  | s :: rest =>
      if Weight.reached (distance s) maxWeight then []
      else s :: yieldBelow maxWeight rest
  end.

(** The values yielded by the inner generator [suggestionsInRange], which
    never throws. *)
Definition suggestionsInRange (suggestions : SuggestionsByDistance)
    (minWeight maxWeight : Weight) : SuggestionsByDistance :=
  yieldBelow maxWeight (skipBelow minWeight suggestions).

(** [new Map([...spots].filter(([i]) => i !== index))] *)
Definition remainingSpots (spots : SpotSuggestions) (index : nat) : SpotSuggestions :=
  Js.newOrderedMap (List.filter (fun entry => negb (Nat.eqb entry.1 index)) spots).

(** The [while] loop of [combineSuggestions] over the iterator of
    in-range suggestions, one step ahead of the suggestion in hand;
    [recurse] is the nested call [combineSuggestions(remaining, undefined, _)]. *)
Fixpoint combineLoop (recurse : Weight -> Gen (list (nat * JsString)))
    (index : nat) (maxWeight : Weight) (iterator : SuggestionsByDistance)
    : Gen (list (nat * JsString)) :=
  match iterator with
  | [] => Gen.ret
  | suggestion :: iterator' =>
      let nextSuggestion := head iterator' in
      Gen.seq
        (Gen.for_of
           (recurse
              (Weight.sub
                 (match nextSuggestion with
                  | Some next => Finite (distance next)
                  | None => maxWeight
                  end)
                 (distance suggestion)))
           (fun list => Gen.yield ((index, word suggestion) :: list)))
        (combineLoop recurse index maxWeight iterator')
  end.

(** [combineSuggestions], by recursion on a bound [depth] of the number of
    nested calls; [combineSuggestions] below starts it at the size of the
    map, which every nested call lowers by one. *)
Fixpoint combineSuggestions_rec (depth : nat) (spots : SpotSuggestions)
    (minWeight maxWeight : Weight) : Gen (list (nat * JsString)) :=
  match spots with
  | [] => Gen.throw
  | (index, suggestions) :: _ =>
      if Weight.negative minWeight || Weight.negative maxWeight then Gen.throw
      else
        let inRange := suggestionsInRange suggestions minWeight maxWeight in
        if length spots =? 1 then
          Gen.for_each inRange (fun suggestion => Gen.yield [(index, word suggestion)])
        else
          match depth with
          | O => Gen.ret
          | S depth' =>
              let remaining := remainingSpots spots index in
              combineLoop (combineSuggestions_rec depth' remaining (Finite 0))
                          index maxWeight inRange
          end
  end.

Definition combineSuggestions (spots : SpotSuggestions)
    (minWeight maxWeight : Weight) : Gen (list (nat * JsString)) :=
  combineSuggestions_rec (length spots) spots minWeight maxWeight.

Definition suggestUnvalidatedCorrections (words : list JsString)
    (language : MnemonicLanguages) : Gen JsString :=
  let invalidWords := imap (fun index word => (word, index)) words in
  if length invalidWords =? 0 then Gen.ret
  else
    let spotSuggestions : SpotSuggestions :=
      Js.newOrderedMap
        (List.map (fun '(word, index) => (index, wordSuggestions word language))
                  invalidWords) in
    Gen.for_of (combineSuggestions spotSuggestions (Finite 0) Infinity)
      (fun replacementList =>
         let replacements := Js.newMap replacementList in
         let suggestedWords :=
           imap (fun i word => default word (replacements !! i)) words in
         Gen.yield (joinMnemonic suggestedWords (Some language))).

Definition suggestCorrections (mnemonic : JsString)
    (language : option MnemonicLanguages) : Gen JsString :=
  let words := splitMnemonic mnemonic in
  let lang :=
    match language with
    | Some l => Some l
    | None => detectLanguage words None
    end in
  match lang with
  | None => Gen.ret
  | Some lang =>
      Gen.for_of (suggestUnvalidatedCorrections words lang)
        (fun suggestion =>
           if validateMnemonic suggestion None (Some lang) then Gen.yield suggestion
           else Gen.ret)
  end.

End Account.

(** ** Seed truncation *)

(** [generateSeed]: the promise is the value it resolves to, a [Buffer] is
    the list of its bytes, and [mnemonicToSeed] stands for
    [bip39ToUse.mnemonicToSeed].  [seed.copy(bufAux, 0, 0, keyByteLength)]
    into a fresh buffer of [keyByteLength] bytes keeps the first
    [keyByteLength] bytes of the seed. *)
Definition generateSeed
    (mnemonicToSeed : JsString -> option JsString -> list Byte.byte)
    (mnemonic : JsString) (password : option JsString)
    (keyByteLength : option Z) : list Byte.byte :=
  let keyByteLength := default 64%Z keyByteLength in
  let seed := mnemonicToSeed mnemonic password in
  if (0 <? keyByteLength)%Z && (keyByteLength <? Z.of_nat (length seed))%Z
  then take (Z.to_nat keyByteLength) seed
  else seed.

(** ** A small instance of the imports, to run the definitions on

    Two-to-four word lists, ASCII lower-casing, accent stripping for the
    precomposed Latin-1 vowels and combining marks, and a validator that
    accepts a phrase when all its tokens are words of the list. *)

Definition sampleWordlists (language : MnemonicLanguages) : list JsString :=
  match language with
  | english => [utf16 "cat"; utf16 "cot"; utf16 "dog"]
  | french => [utf16 "cote"; [99; 244; 116; 233]; utf16 "chat"]%N
  | spanish => [utf16 "gato"; [97; 241; 111]]%N
  | italian => [utf16 "gatto"; utf16 "cane"]
  | portuguese => [utf16 "gato"; utf16 "abacate"]
  | japanese => [[12354; 12356]; [12354; 12362]]%N
  | korean => [[44032]; [44033]]%N
  | chinese_simplified => [[30340]; [19968]]%N
  | chinese_traditional => [[30340]; [19968]]%N
  end.

Definition sampleToLowerCase (s : JsString) : JsString :=
  List.map (fun c => if ((65 <=? c) && (c <=? 90))%N then (c + 32)%N else c) s.

Definition sampleStripUnit (c : N) : list N :=
  (if (0x300 <=? c) && (c <=? 0x36f) then []
   else if (0xe0 <=? c) && (c <=? 0xe5) then [97]
   else if c =? 0xe7 then [99]
   else if (0xe8 <=? c) && (c <=? 0xeb) then [101]
   else if (0xec <=? c) && (c <=? 0xef) then [105]
   else if c =? 0xf1 then [110]
   else if (0xf2 <=? c) && (c <=? 0xf6) then [111]
   else if (0xf9 <=? c) && (c <=? 0xfc) then [117]
   else [c])%N.

Definition sampleNormalizeAccents (s : JsString) : JsString :=
  List.concat (List.map sampleStripUnit s).

Definition sampleValidate (mnemonic : JsString) (wordlist : list JsString) : bool :=
  forallb (fun w => bool_decide (w ∈ wordlist)) (Js.split_ws (Js.trim mnemonic)).

Definition sampleImports : Imports :=
  {| bip39_wordlists := sampleWordlists;
     bip39_validateMnemonic := sampleValidate;
     normalizeAccents := sampleNormalizeAccents;
     toLowerCase := sampleToLowerCase |}.

(** The suggestions for the phrase [cat dig] over the English sample list. *)
Definition sampleSpots : SpotSuggestions :=
  [(0, [ {| distance := 0; word := utf16 "cat" |};
         {| distance := 1; word := utf16 "cot" |};
         {| distance := 3; word := utf16 "dog" |} ]);
   (1, [ {| distance := 1; word := utf16 "dog" |};
         {| distance := 3; word := utf16 "cat" |};
         {| distance := 3; word := utf16 "cot" |} ])].

(** ** Vocabulary of the statements *)

(** A string of white space only, and a word token: not empty and free of
    white space. *)
Definition whitespace (s : JsString) : Prop :=
  Forall (fun c => Js.isWhiteSpace c = true) s.

Definition token (s : JsString) : Prop :=
  s <> [] /\ Forall (fun c => Js.isWhiteSpace c = false) s.

(** [first sep1 tok1 sep2 tok2 ...]: tokens with the separators between them. *)
Fixpoint interleave (first : JsString) (rest : list (JsString * JsString)) : JsString :=
  match rest with
  | [] => first
  | (sep, tok) :: rest' => first ++ sep ++ interleave tok rest'
  end.

Definition separated (st : JsString * JsString) : Prop :=
  st.1 <> [] /\ whitespace st.1 /\ token st.2.

(** The distance of a suggestion lies in the window [[minWeight, maxWeight)]. *)
Definition inWindow (minWeight maxWeight : Weight) (s : Suggestion) : Prop :=
  Weight.reached (distance s) minWeight = true
  /\ Weight.reached (distance s) maxWeight = false.

(** [total] is below the upper end of a window. *)
Definition below (total : Z) (maxWeight : Weight) : Prop :=
  match maxWeight with Finite z => (total < z)%Z | Infinity => True end.

(** A ranked list of suggestions: distances are not negative and do not
    decrease along the list. *)
Definition ranked (suggestions : SuggestionsByDistance) : Prop :=
  Forall (fun s => (0 <= distance s)%Z) suggestions
  /\ StronglySorted (fun a b => (distance a <= distance b)%Z) suggestions.

(** A [SpotSuggestions] map: one entry per position, each ranked. *)
Definition wellFormed (spots : SpotSuggestions) : Prop :=
  NoDup (List.map fst spots) /\ Forall (fun entry => ranked entry.2) spots.

(** [chosen spots a total]: the assignment [a] picks, for every position of
    [spots] in order, the word of one of its suggestions, and [total] is the
    sum of the distances of the suggestions picked. *)
Inductive chosen : SpotSuggestions -> list (nat * JsString) -> Z -> Prop :=
  | chosen_nil : chosen [] [] 0
  | chosen_cons index suggestions s rest a total :
      s ∈ suggestions ->
      chosen rest a total ->
      chosen ((index, suggestions) :: rest) ((index, word s) :: a) (distance s + total).

(** The window handed to the nested enumeration for the [k]-th suggestion
    [s] iterated at the head position: up to the distance of the next
    suggestion iterated there, less the distance of [s]; when none is left,
    up to the end of the window in force, less the distance of [s], which
    is unbounded when that end is [Infinity]. *)
Definition siblingWindow (iterated : SuggestionsByDistance) (maxWeight : Weight)
    (k : nat) (s : Suggestion) : Weight :=
  Weight.sub
    (match iterated !! S k with
     | Some next => Finite (distance next)
     | None => maxWeight
     end)
    (distance s).

(** The word that answers for a stripped form in the accent map of a word
    list: the last word of the list with that stripped form. *)
Definition accentMapWinner `{Imports} (stripped : JsString) (wordList : list JsString)
    : option JsString :=
  last (filter (fun word => normalizeAccents word = stripped) wordList).

(** * Properties *)

(** ** Tokenizer *)

Section Tokenizer.

Lemma skipWhiteSpace_whitespace s rest :
  whitespace s -> Js.skipWhiteSpace (s ++ rest) = Js.skipWhiteSpace rest.
Proof.
  induction 1 as [|c s Hc _ IH]; simpl; [done|]. by rewrite Hc.
Qed.

Lemma skipWhiteSpace_all s : whitespace s -> Js.skipWhiteSpace s = [].
Proof.
  intros Hs. rewrite <- (app_nil_r s). by rewrite skipWhiteSpace_whitespace.
Qed.

Lemma skipWhiteSpace_start c s :
  Js.isWhiteSpace c = false -> Js.skipWhiteSpace (c :: s) = c :: s.
Proof. intros Hc. simpl. by rewrite Hc. Qed.

Lemma whitespace_rev s : whitespace s -> whitespace (rev s).
Proof. apply List.Forall_rev. Qed.

(** [trim] removes exactly the white space around a string that starts
    and ends with other code units. *)
Lemma trim_core lead trail c body c' :
  whitespace lead -> whitespace trail ->
  Js.isWhiteSpace c = false -> Js.isWhiteSpace c' = false ->
  Js.trim (lead ++ (c :: body ++ [c']) ++ trail) = c :: body ++ [c'].
Proof.
  intros Hl Ht Hc Hc'. unfold Js.trim.
  rewrite skipWhiteSpace_whitespace by done.
  rewrite <- app_comm_cons.
  rewrite skipWhiteSpace_start by done.
  rewrite app_comm_cons, rev_app_distr.
  rewrite skipWhiteSpace_whitespace by by apply whitespace_rev.
  rewrite app_comm_cons, rev_app_distr. simpl. rewrite Hc'. simpl.
  by rewrite rev_app_distr, rev_involutive.
Qed.

Lemma trim_single lead trail c :
  whitespace lead -> whitespace trail -> Js.isWhiteSpace c = false ->
  Js.trim (lead ++ [c] ++ trail) = [c].
Proof.
  intros Hl Ht Hc. unfold Js.trim.
  rewrite skipWhiteSpace_whitespace by done. simpl app.
  rewrite skipWhiteSpace_start by done.
  change (c :: trail) with ([c] ++ trail). rewrite rev_app_distr.
  rewrite skipWhiteSpace_whitespace by by apply whitespace_rev.
  simpl. by rewrite Hc.
Qed.

Lemma split_ws_from_nonempty b s : Js.split_ws_from b s <> [].
Proof.
  revert b. induction s as [|c s IH]; intros b; simpl; [done|].
  destruct (Js.isWhiteSpace c).
  - destruct b; [apply IH | done].
  - destruct (Js.split_ws_from false s); done.
Qed.

(** No token of a split contains white space. *)
Lemma split_ws_from_clean b s :
  Forall (Forall (fun c => Js.isWhiteSpace c = false)) (Js.split_ws_from b s).
Proof.
  revert b. induction s as [|c s IH]; intros b; simpl.
  - repeat constructor.
  - destruct (Js.isWhiteSpace c) eqn:Hc.
    + destruct b; [apply IH | constructor; [constructor | apply IH]].
    + specialize (IH false). destruct (Js.split_ws_from false s) as [|tok toks].
      * repeat constructor. done.
      * inversion IH; subst. constructor; [by constructor | done].
Qed.

Lemma split_ws_from_token tok s :
  Forall (fun c => Js.isWhiteSpace c = false) tok ->
  Js.split_ws_from false (tok ++ s) =
    match Js.split_ws_from false s with
    | t :: ts => (tok ++ t) :: ts
    | [] => [tok]
    end.
Proof.
  induction 1 as [|c tok Hc _ IH]; simpl.
  - destruct (Js.split_ws_from false s) eqn:E; [|done].
    by apply split_ws_from_nonempty in E.
  - rewrite Hc, IH. by destruct (Js.split_ws_from false s).
Qed.

Lemma split_ws_from_separator sep c s :
  whitespace sep -> Js.isWhiteSpace c = false ->
  Js.split_ws_from true (sep ++ c :: s) = Js.split_ws_from false (c :: s).
Proof.
  intros Hsep Hc. induction Hsep as [|d sep Hd _ IH]; simpl.
  - by rewrite Hc.
  - by rewrite Hd.
Qed.

Lemma interleave_start first rest :
  token first -> Forall separated rest ->
  exists c s, interleave first rest = c :: s /\ Js.isWhiteSpace c = false.
Proof.
  intros [Hne Hclean] _. destruct first as [|c first]; [done|].
  inversion Hclean; subst. destruct rest as [|[sep tok] rest]; simpl; eauto.
Qed.

Lemma interleave_end first rest :
  token first -> Forall separated rest ->
  exists s c, interleave first rest = s ++ [c] /\ Js.isWhiteSpace c = false.
Proof.
  intros Hfirst Hrest. revert first Hfirst.
  induction Hrest as [|[sep tok] rest (_ & _ & Htok) _ IH]; intros first [Hne Hclean]; simpl.
  - destruct (exists_last Hne) as (s & c & ->). exists s, c. split; [done|].
    apply Forall_app in Hclean as [_ Hc]. by inversion Hc.
  - destruct (IH tok Htok) as (s & c & -> & Hc).
    exists (first ++ sep ++ s), c. by rewrite <- !app_assoc.
Qed.

Lemma split_ws_interleave first rest :
  token first -> Forall separated rest ->
  Js.split_ws (interleave first rest) = first :: List.map snd rest.
Proof.
  unfold Js.split_ws. intros Hfirst Hrest. revert first Hfirst.
  induction Hrest as [|[sep tok] rest (Hne & Hsep & Htok) Hrest IH];
    intros first [Hfne Hclean]; simpl in *.
  - rewrite <- (app_nil_r first) at 1. rewrite split_ws_from_token by done.
    simpl. by rewrite app_nil_r.
  - rewrite split_ws_from_token by done.
    destruct sep as [|d sep]; [done|]. inversion Hsep; subst.
    destruct (interleave_start tok rest Htok Hrest) as (c & s & Heq & Hc).
    simpl. rewrite H1. rewrite Heq, split_ws_from_separator by done.
    rewrite <- Heq, IH by done. by rewrite app_nil_r.
Qed.

Lemma splitMnemonic_whitespace m : whitespace m -> splitMnemonic m = [[]].
Proof.
  intros Hm. unfold splitMnemonic, Js.trim.
  by rewrite (skipWhiteSpace_all m Hm).
Qed.

Lemma splitMnemonic_interleave lead first rest trail :
  whitespace lead -> whitespace trail -> token first -> Forall separated rest ->
  splitMnemonic (lead ++ interleave first rest ++ trail) = first :: List.map snd rest.
Proof.
  intros Hl Ht Hfirst Hrest. unfold splitMnemonic.
  destruct (interleave_start first rest Hfirst Hrest) as (c & s & Heq & Hc).
  destruct (interleave_end first rest Hfirst Hrest) as (s' & c' & Heq' & Hc').
  assert (Js.trim (lead ++ interleave first rest ++ trail) = interleave first rest) as ->.
  { destruct s' as [|d s'].
    - rewrite Heq'. simpl. simpl in Heq'. by apply trim_single.
    - rewrite Heq' in Heq. simpl in Heq. injection Heq as -> <-.
      rewrite Heq'. by apply trim_core. }
  by apply split_ws_interleave.
Qed.

Lemma splitMnemonic_token w : token w -> splitMnemonic w = [w].
Proof.
  intros Hw.
  pose proof (splitMnemonic_interleave [] w [] []
                (List.Forall_nil _) (List.Forall_nil _) Hw (List.Forall_nil _)) as Hs.
  simpl in Hs. by rewrite app_nil_r in Hs.
Qed.

Lemma interleave_cons c first rest :
  interleave (c :: first) rest = c :: interleave first rest.
Proof. by destruct rest as [|[sep tok] rest]. Qed.

(** Every phrase is white space only, or tokens separated by white space
    with white space around them. *)
Lemma phrase_shape m :
  whitespace m
  \/ exists lead first rest trail,
       whitespace lead /\ whitespace trail /\ token first /\ Forall separated rest
       /\ m = lead ++ interleave first rest ++ trail.
Proof.
  induction m as [|c m IH]; [left; constructor|].
  destruct (Js.isWhiteSpace c) eqn:Hc;
    destruct IH as [Hws|(lead & first & rest & trail & Hl & Ht & Hf & Hr & ->)].
  - left. by constructor.
  - right. exists (c :: lead), first, rest, trail.
    exact (conj (Forall_cons_2 _ _ _ Hc Hl) (conj Ht (conj Hf (conj Hr eq_refl)))).
  - right. exists [], [c], [], m.
    refine (conj (List.Forall_nil _) (conj Hws (conj _ (conj (List.Forall_nil _) eq_refl)))).
    split; [done|by repeat constructor].
  - right. destruct lead as [|d lead].
    + exists [], (c :: first), rest, trail. rewrite interleave_cons.
      refine (conj Hl (conj Ht (conj _ (conj Hr eq_refl)))).
      destruct Hf as [_ Hf]. split; [done|by constructor].
    + exists [], [c], ((d :: lead, first) :: rest), trail.
      refine (conj (List.Forall_nil _) (conj Ht (conj _ (conj _ _)))).
      * split; [done|by repeat constructor].
      * constructor; [|done]. exact (conj (fun E => nil_cons (eq_sym E)) (conj Hl Hf)).
      * simpl. by rewrite <- !app_assoc.
Qed.

(** C8, as stated, fails: the empty phrase is not tokenized to the empty
    sequence.  [''.trim().split(/\s+/)] is the array holding one empty
    string. *)
Lemma empty_phrase_has_one_token : splitMnemonic [] <> [].
Proof. by compute. Qed.

(** C8 (amended): for every input string, tokenization splits on runs of
    white space after trimming leading and trailing white space: a phrase
    made of tokens separated by non-empty runs of white space, with any
    white space around it, is split into exactly these tokens, and no
    token of any phrase contains white space.  The empty string, as every
    string of white space only, yields the one-element sequence holding
    the empty token.  Every string is of one of these two shapes. *)
Theorem splitMnemonic_tokenizes :
  (forall lead first rest trail,
      whitespace lead -> whitespace trail -> token first -> Forall separated rest ->
      splitMnemonic (lead ++ interleave first rest ++ trail) = first :: List.map snd rest)
  /\ (forall m, Forall (Forall (fun c => Js.isWhiteSpace c = false)) (splitMnemonic m))
  /\ (forall m, whitespace m -> splitMnemonic m = [[]])
  /\ splitMnemonic [] = [[]]
  /\ (forall m,
        whitespace m
        \/ exists lead first rest trail,
             whitespace lead /\ whitespace trail /\ token first /\ Forall separated rest
             /\ m = lead ++ interleave first rest ++ trail).
Proof.
  split; [exact splitMnemonic_interleave|].
  split; [intros m; apply split_ws_from_clean|].
  split; [exact splitMnemonic_whitespace|].
  split; [|exact phrase_shape].
  apply splitMnemonic_whitespace. constructor.
Qed.

Lemma splitMnemonic_tokenizes_witness :
  splitMnemonic (utf16 "  cat   dog ") = [utf16 "cat"; utf16 "dog"]
  /\ splitMnemonic [9; 32; 0x3000]%N = [[]].
Proof.
  split.
  - apply (proj1 splitMnemonic_tokenizes
             (utf16 "  ") (utf16 "cat") [(utf16 "   ", utf16 "dog")] (utf16 " ")).
    + repeat constructor.
    + repeat constructor.
    + split; [discriminate | repeat constructor].
    + repeat constructor; discriminate.
  - apply (proj1 (proj2 (proj2 splitMnemonic_tokenizes))). repeat constructor.
Defined.

End Tokenizer.

(** ** Language detection *)

Section Detector.
Context `{Imports}.

Lemma newSet_from (x : JsString) (values : list JsString) (s0 : gset JsString) :
  x ∈ foldl (fun s v => {[v]} ∪ s) s0 values <-> x ∈ values \/ x ∈ s0.
Proof.
  revert s0. induction values as [|v values IH]; intros s0; simpl.
  - set_solver.
  - rewrite IH. set_solver.
Qed.

Lemma has_newSet (x : JsString) (values : list JsString) :
  Js.has (Js.newSet values) x = bool_decide (x ∈ values).
Proof.
  unfold Js.has, Js.newSet. apply bool_decide_ext.
  rewrite newSet_from. set_solver.
Qed.

Lemma count_from (wl : list JsString) (words : list JsString) (n : nat) :
  foldl (fun count word => if Js.has (Js.newSet wl) word then count + 1 else count) n words
  = n + length (filter (fun w => w ∈ wl) words).
Proof.
  revert n. induction words as [|w words IH]; intros n; simpl; [lia|].
  rewrite IH, has_newSet, filter_cons.
  case_bool_decide; case_decide; simpl; try done; lia.
Qed.

(** The score of a candidate is the number of tokens, repeated ones
    included, that are words of its list. *)
Lemma languageScore_count words candidate :
  languageScore words candidate
  = length (filter (fun w => w ∈ getWordList (Some candidate)) words).
Proof. unfold languageScore. by rewrite count_from. Qed.

(** The reduction keeps the running maximum and, in candidate order, the
    entries that attain it. *)
Lemma leaders_from (f : MnemonicLanguages -> nat) cs leaders m :
  foldl leadersStep (leaders, m) (List.map (fun c => (c, f c)) cs)
  = ((if decide (m `max` max_list (List.map f cs) = m) then leaders else [])
       ++ filter (fun c => f c = m `max` max_list (List.map f cs)) cs,
     m `max` max_list (List.map f cs)).
Proof.
  revert leaders m. induction cs as [|c cs IH]; intros leaders m; simpl.
  - rewrite Nat.max_0_r. case_decide; [|done]. by rewrite app_nil_r.
  - rewrite filter_cons.
    destruct (m <? f c) eqn:Hlt; [|destruct (f c =? m) eqn:Heq]; rewrite IH.
    + apply Nat.ltb_lt in Hlt.
      replace (m `max` (f c `max` max_list (List.map f cs)))
        with (f c `max` max_list (List.map f cs)) by lia.
      f_equal. repeat case_decide; simpl; try done; lia.
    + apply Nat.eqb_eq in Heq.
      replace (m `max` (f c `max` max_list (List.map f cs)))
        with (m `max` max_list (List.map f cs)) by lia.
      f_equal. repeat case_decide; simpl; try lia; by rewrite <- ?app_assoc.
    + apply Nat.ltb_ge in Hlt. apply Nat.eqb_neq in Heq.
      replace (m `max` (f c `max` max_list (List.map f cs)))
        with (m `max` max_list (List.map f cs)) by lia.
      f_equal. repeat case_decide; simpl; try done; lia.
Qed.

Lemma detectLanguage_winners words candidates :
  detectLanguage words candidates =
    let considered := default getAllLanguages candidates in
    let best := max_list (List.map (languageScore words) considered) in
    let winners := filter (fun c => languageScore words c = best) considered in
    if negb (length winners =? 1) || (best <? 1) then None else head winners.
Proof.
  unfold detectLanguage. rewrite leaders_from. simpl. by case_decide.
Qed.

Lemma unique_winner (winners : list MnemonicLanguages) (best : nat) :
  let result :=
    if negb (length winners =? 1) || (best <? 1) then None else head winners in
  (forall l, result = Some l <-> winners = [l] /\ 1 <= best)
  /\ (result = None <-> length winners <> 1 \/ best = 0).
Proof.
  destruct winners as [|w [|w' ws]]; simpl.
  - split; [intros l; split; [done|by intros [? _]]|]. split; [by left|done].
  - destruct (best <? 1) eqn:Hb; simpl.
    + apply Nat.ltb_lt in Hb. split; [intros l; split; [done|lia]|].
      split; [right; lia|done].
    + apply Nat.ltb_ge in Hb.
      split; [intros l; split; [by intros [= ->]|by intros [[= ->] _]]|].
      split; [done|]. intros [?|?]; [done|lia].
  - split; [intros l; split; [done|by intros [? _]]|]. split; [by left|done].
Qed.

(** C1: [detectLanguage] scores each candidate by the number of tokens,
    repeated ones included, found verbatim in its word list; it returns a
    language exactly when that language is the only candidate attaining
    the maximal score and this maximum is at least 1, and none in every
    other case: no match at all, or several candidates at the maximum.
    The candidates default to the fixed nine languages. *)
Theorem detectLanguage_unique_best words candidates :
  let considered := default getAllLanguages candidates in
  let best := max_list (List.map (languageScore words) considered) in
  let winners := filter (fun c => languageScore words c = best) considered in
  (forall c, languageScore words c
             = length (filter (fun w => w ∈ getWordList (Some c)) words))
  /\ (forall l, detectLanguage words candidates = Some l <-> winners = [l] /\ 1 <= best)
  /\ (detectLanguage words candidates = None <-> length winners <> 1 \/ best = 0)
  /\ default getAllLanguages None
     = [chinese_simplified; chinese_traditional; english; french; italian;
        japanese; korean; spanish; portuguese].
Proof.
  intros considered best winners.
  split; [apply languageScore_count|].
  rewrite detectLanguage_winners.
  destruct (unique_winner winners best) as [Hsome Hnone].
  split; [exact Hsome|]. split; [exact Hnone|reflexivity].
Qed.

End Detector.

(** ** Checksum validation over the languages *)

Section Validation.
Context `{Imports}.

Lemma validateMnemonic_any_true b m languages :
  validateMnemonic_any b m languages = true <->
  exists l, l ∈ languages /\ Bip39.validateMnemonic b m (getWordList (Some l)) = true.
Proof.
  induction languages as [|l0 languages IH]; simpl.
  - split; [done|]. intros (l & Hl & _). by apply elem_of_nil in Hl.
  - destruct (Bip39.validateMnemonic b m (getWordList (Some l0))) eqn:Hv.
    + split; [|done]. intros _. exists l0. split; [left|done].
    + rewrite IH. split; intros (l & Hl & Hacc).
      * exists l. split; [by right|done].
      * apply elem_of_cons in Hl as [->|Hl]; [congruence|eauto].
Qed.

Lemma validateMnemonic_probes_prefix b m languages :
  let accepts l := Bip39.validateMnemonic b m (getWordList (Some l)) in
  exists skipped,
    languages = validateMnemonic_probes b m languages ++ skipped
    /\ (validateMnemonic_any b m languages = true ->
        exists tried l,
          validateMnemonic_probes b m languages = tried ++ [l]
          /\ Forall (fun l' => accepts l' = false) tried /\ accepts l = true)
    /\ (validateMnemonic_any b m languages = false ->
        skipped = []
        /\ Forall (fun l' => accepts l' = false) (validateMnemonic_probes b m languages)).
Proof.
  intros accepts. induction languages as [|l0 languages IH]; simpl.
  - exists []. repeat split; try done.
  - destruct (Bip39.validateMnemonic b m (getWordList (Some l0))) eqn:Hv.
    + exists languages. split; [done|]. split; [|done].
      intros _. exists [], l0. by repeat split.
    + destruct IH as (skipped & Heq & Htrue & Hfalse).
      exists skipped. split; [by rewrite <- Heq|]. split.
      * intros Hany. destruct (Htrue Hany) as (tried & l & -> & Hrej & Hacc).
        exists (l0 :: tried), l. repeat split; [by constructor|done].
      * intros Hany. destruct (Hfalse Hany) as [-> Hrej]. split; [done|by constructor].
Qed.

Lemma getAllLanguages_complete (l : MnemonicLanguages) : l ∈ getAllLanguages.
Proof. destruct l; unfold getAllLanguages; set_solver. Qed.

(** C10: called without a language, [validateMnemonic] returns true
    exactly when the bip39 validator accepts the mnemonic with the word
    list of at least one of the nine languages.  It hands the word lists
    to the validator in the order of [getAllLanguages], stops at the first
    one accepted and returns true; it returns false when all nine were
    tried and rejected. *)
Theorem validateMnemonic_any_language mnemonic bip39ToUse :
  let validator := default bip39Wrapper bip39ToUse in
  let accepts l := Bip39.validateMnemonic validator mnemonic (getWordList (Some l)) in
  let probes := validateMnemonic_probes validator mnemonic getAllLanguages in
  (validateMnemonic mnemonic bip39ToUse None = true <-> exists l, accepts l = true)
  /\ (exists skipped,
        getAllLanguages = probes ++ skipped
        /\ (validateMnemonic mnemonic bip39ToUse None = true ->
            exists tried l,
              probes = tried ++ [l]
              /\ Forall (fun l' => accepts l' = false) tried /\ accepts l = true)
        /\ (validateMnemonic mnemonic bip39ToUse None = false ->
            skipped = [] /\ length probes = 9
            /\ Forall (fun l' => accepts l' = false) probes)).
Proof.
  intros validator accepts probes. unfold validateMnemonic. fold validator. split.
  - rewrite validateMnemonic_any_true. split.
    + intros (l & _ & Hl). by exists l.
    + intros (l & Hl). exists l. split; [apply getAllLanguages_complete|done].
  - destruct (validateMnemonic_probes_prefix validator mnemonic getAllLanguages)
      as (skipped & Heq & Htrue & Hfalse).
    exists skipped. split; [done|]. split; [done|].
    intros Hany. destruct (Hfalse Hany) as [-> Hrej]. repeat split; [|done].
    fold probes in Heq. rewrite app_nil_r in Heq. by rewrite <- Heq.
Qed.

End Validation.

(** ** Normalisation *)

Section Normalizer.
Context `{Imports}.

Lemma last_filter_intro {A} (P : A -> Prop) `{forall x, Decision (P x)}
    (before : list A) (x : A) (after : list A) :
  P x -> Forall (fun y => ~ P y) after ->
  last (filter P (before ++ x :: after)) = Some x.
Proof.
  intros Hx Hafter. rewrite filter_app, filter_cons_True by done.
  assert (filter P after = []) as ->.
  { induction Hafter as [|y after Hy _ IH]; [done|]. by rewrite filter_cons_False. }
  by rewrite last_snoc.
Qed.

Lemma last_filter_exists {A} (P : A -> Prop) `{forall x, Decision (P x)}
    (l : list A) (w : A) :
  w ∈ l -> P w ->
  exists before x after,
    l = before ++ x :: after /\ P x /\ Forall (fun y => ~ P y) after.
Proof.
  induction l as [|y l IH] using rev_ind; intros Hw HP.
  - by apply elem_of_nil in Hw.
  - destruct (decide (P y)) as [Hy|Hy].
    + exists l, y, []. by repeat split.
    + apply elem_of_app in Hw as [Hw|Hw].
      * destruct (IH Hw HP) as (before & x & after & -> & Hx & Hafter).
        exists before, x, (after ++ [y]). rewrite <- app_assoc. repeat split; [done|].
        apply Forall_app. split; [done|by constructor].
      * apply list_elem_of_singleton in Hw as ->. done.
Qed.

(** [new Map(wordList.map((word) => [normalizeAccents(word), word]))]
    answers a stripped form with the last word that has it. *)
Lemma accentMap_from (wordList : list JsString) (m0 : gmap JsString JsString)
    (stripped : JsString) :
  foldl (fun m kv => <[kv.1 := kv.2]> m) m0
        (List.map (fun word => (normalizeAccents word, word)) wordList) !! stripped
  = match accentMapWinner stripped wordList with
    | Some word => Some word
    | None => m0 !! stripped
    end.
Proof.
  unfold accentMapWinner. revert m0.
  induction wordList as [|w wordList IH]; intros m0; simpl; [done|].
  rewrite IH, filter_cons. case_decide as Hw; simpl.
  - rewrite last_cons.
    destruct (last (filter _ wordList)); [done|].
    subst stripped. by rewrite lookup_insert_eq.
  - destruct (last (filter _ wordList)); [done|].
    by rewrite lookup_insert_ne.
Qed.

Lemma accentMap_get (wordList : list JsString) (stripped : JsString) :
  Js.newMap (List.map (fun word => (normalizeAccents word, word)) wordList) !! stripped
  = accentMapWinner stripped wordList.
Proof.
  unfold Js.newMap. rewrite accentMap_from, lookup_empty.
  by destruct (accentMapWinner stripped wordList).
Qed.

Lemma normalizeMnemonic_token (w : JsString) (L : MnemonicLanguages) :
  token w ->
  normalizeMnemonic w (Some L)
  = if isLatinBasedLanguage L
    then default (toLowerCase w)
           (accentMapWinner (normalizeAccents (toLowerCase w)) (getWordList (Some L)))
    else toLowerCase w.
Proof.
  intros Hw. unfold normalizeMnemonic, formatNonAccentedCharacters, joinMnemonic.
  rewrite (splitMnemonic_token w Hw). simpl.
  destruct (isLatinBasedLanguage L); [|done]. simpl. by rewrite accentMap_get.
Qed.

(** A word of the list that is a single lower-case token is left as it is
    when, for a Latin-based language, it is the word the accent map keeps
    for its stripped form. *)
Lemma normalizeMnemonic_kept_word (L : MnemonicLanguages) (w : JsString) :
  w ∈ getWordList (Some L) ->
  token w ->
  toLowerCase w = w ->
  (isLatinBasedLanguage L = true ->
   accentMapWinner (normalizeAccents w) (getWordList (Some L)) = Some w) ->
  normalizeMnemonic w (Some L) = w.
Proof.
  intros _ Htoken Hlower Hwins. rewrite normalizeMnemonic_token by done.
  rewrite Hlower. destruct (isLatinBasedLanguage L); [|done].
  by rewrite Hwins.
Qed.

(** C5: for every language L and every word w of L's word list,
    [normalizeMnemonic(w, L)] is w.  The word lists are data of the bip39
    package; what is used of them is that the words of L's list are
    lower-case word tokens and that, when L is Latin-based, no two words of
    the list have the same accent-stripped form. *)
Theorem normalizeMnemonic_canonical (L : MnemonicLanguages) :
  (forall w, w ∈ getWordList (Some L) -> token w /\ toLowerCase w = w) ->
  (isLatinBasedLanguage L = true ->
   forall w1 w2,
     w1 ∈ getWordList (Some L) -> w2 ∈ getWordList (Some L) ->
     normalizeAccents w1 = normalizeAccents w2 -> w1 = w2) ->
  forall w, w ∈ getWordList (Some L) -> normalizeMnemonic w (Some L) = w.
Proof.
  intros Hwords Hinjective w Hw. destruct (Hwords w Hw) as [Htoken Hlower].
  apply normalizeMnemonic_kept_word; [done..|].
  intros Hlatin.
  destruct (last_filter_exists
              (fun x => normalizeAccents x = normalizeAccents w) _ w Hw eq_refl)
    as (before & x & after & Heq & Hx & Hafter).
  assert (x = w) as ->.
  { apply (Hinjective Hlatin); [|done|done].
    rewrite Heq. apply elem_of_app. right. left. }
  unfold accentMapWinner. rewrite Heq. by apply last_filter_intro.
Qed.

(** C6: for a Latin-based language L and a word w of L's list, the
    accent-stripped lower-case form of w is normalised, with language L,
    to the last word of the list that has this stripped form: the later
    one wins when several collapse to it, and it is w itself when no word
    after w does.  The stripped form is taken to be a single token that
    lower-casing and stripping leave unchanged. *)
Theorem normalizeMnemonic_restores_accents (L : MnemonicLanguages) (w : JsString) :
  let stripped := normalizeAccents (toLowerCase w) in
  isLatinBasedLanguage L = true ->
  w ∈ getWordList (Some L) ->
  toLowerCase w = w ->
  token stripped ->
  toLowerCase stripped = stripped ->
  normalizeAccents stripped = stripped ->
  (exists before w' after,
      getWordList (Some L) = before ++ w' :: after
      /\ normalizeAccents w' = stripped
      /\ Forall (fun later => normalizeAccents later <> stripped) after
      /\ normalizeMnemonic stripped (Some L) = w')
  /\ (forall before after,
        getWordList (Some L) = before ++ w :: after ->
        Forall (fun later => normalizeAccents later <> stripped) after ->
        normalizeMnemonic stripped (Some L) = w).
Proof.
  intros stripped Hlatin Hin Hw Htoken Hlower Hidem.
  rewrite normalizeMnemonic_token by done. rewrite Hlatin, Hlower, Hidem.
  assert (normalizeAccents w = stripped) as Hstrip by (unfold stripped; by rewrite Hw).
  split.
  - destruct (last_filter_exists (fun x => normalizeAccents x = stripped) _ w Hin Hstrip)
      as (before & w' & after & Heq & Hw' & Hafter).
    exists before, w', after. repeat split; try done.
    unfold accentMapWinner. rewrite Heq. by rewrite last_filter_intro.
  - intros before after Heq Hafter.
    unfold accentMapWinner. rewrite Heq. by rewrite last_filter_intro.
Qed.

End Normalizer.

(** ** Ranking by edit distance *)

Section Ranking.

Lemma levenshtein_cons x a y b :
  levenshtein (x :: a) (y :: b)
  = Nat.min (Nat.min (S (levenshtein a (y :: b))) (S (levenshtein (x :: a) b)))
            ((if N.eqb x y then 0 else 1) + levenshtein a b).
Proof. reflexivity. Qed.

Lemma levenshtein_same a : levenshtein a a = 0.
Proof.
  induction a as [|x a IH]; [done|].
  rewrite levenshtein_cons, N.eqb_refl, IH. lia.
Qed.

Lemma levenshtein_zero a b : levenshtein a b = 0 -> a = b.
Proof.
  revert b. induction a as [|x a IH]; intros [|y b]; try done.
  rewrite levenshtein_cons. destruct (N.eqb x y) eqn:Hxy; [|lia].
  apply N.eqb_eq in Hxy as ->. intros Hmin. f_equal. apply IH. lia.
Qed.

Lemma levenshteinDistance_zero a b : levenshteinDistance a b = 0%Z <-> a = b.
Proof.
  unfold levenshteinDistance. split.
  - intros Hd. apply levenshtein_zero. lia.
  - intros ->. by rewrite levenshtein_same.
Qed.

Context {A : Type} (key : A -> Z).

Let compareFn (a b : A) : Z := (key a - key b)%Z.

Lemma sort_insert_Permutation x l : Permutation (Js.sort_insert compareFn x l) (x :: l).
Proof.
  induction l as [|y l IH]; simpl; [done|].
  destruct (0 <? compareFn x y)%Z; [|done].
  rewrite IH. apply perm_swap.
Qed.

Lemma sort_Permutation l : Permutation (Js.sort compareFn l) l.
Proof.
  induction l as [|x l IH]; simpl; [done|].
  fold (Js.sort compareFn l). by rewrite sort_insert_Permutation, IH.
Qed.

Lemma sort_insert_sorted x l :
  StronglySorted (fun a b => (key a <= key b)%Z) l ->
  StronglySorted (fun a b => (key a <= key b)%Z) (Js.sort_insert compareFn x l).
Proof.
  induction 1 as [|y l Hl IH Hy]; simpl; [repeat constructor|].
  unfold compareFn at 1. destruct (0 <? key x - key y)%Z eqn:Hcmp.
  - apply Z.ltb_lt in Hcmp. constructor; [done|].
    rewrite sort_insert_Permutation. constructor; [lia|done].
  - apply Z.ltb_ge in Hcmp. constructor; [by constructor|].
    constructor; [lia|]. eapply Forall_impl; [exact Hy|]. simpl. intros; lia.
Qed.

Lemma sort_sorted l : StronglySorted (fun a b => (key a <= key b)%Z) (Js.sort compareFn l).
Proof.
  induction l as [|x l IH]; simpl; [constructor|]. by apply sort_insert_sorted.
Qed.

(** Stability: among the elements with one key, the order is kept. *)
Lemma sort_insert_stable d x l :
  filter (fun a => key a = d) (Js.sort_insert compareFn x l)
  = filter (fun a => key a = d) (x :: l).
Proof.
  induction l as [|y l IH]; simpl; [done|].
  unfold compareFn at 1. destruct (0 <? key x - key y)%Z eqn:Hcmp; [|done].
  apply Z.ltb_lt in Hcmp.
  rewrite (filter_cons _ y), IH, !filter_cons.
  repeat case_decide; try done; lia.
Qed.

Lemma sort_stable d l :
  filter (fun a => key a = d) (Js.sort compareFn l) = filter (fun a => key a = d) l.
Proof.
  induction l as [|x l IH]; simpl; [done|]. fold (Js.sort compareFn l).
  by rewrite sort_insert_stable, !filter_cons, IH.
Qed.

(** The head of the sorted array is the first element with the least key. *)
Lemma sort_head_least l x d :
  key x = d -> x ∈ l -> (forall y, y ∈ l -> (d <= key y)%Z) ->
  head (Js.sort compareFn l) = head (filter (fun a => key a = d) l).
Proof.
  intros <- Hx Hleast. rewrite <- (sort_stable (key x) l).
  pose proof (sort_sorted l) as Hsorted. pose proof (sort_Permutation l) as Hperm.
  destruct (Js.sort compareFn l) as [|s0 sorted].
  - apply Permutation_nil in Hperm. subst l. by apply elem_of_nil in Hx.
  - apply StronglySorted_inv in Hsorted as [_ Hs0].
    assert (key s0 = key x) as Hkey.
    { apply Z.le_antisymm.
      - rewrite <- Hperm in Hx. apply elem_of_cons in Hx as [->|Hx]; [done|].
        rewrite Forall_forall in Hs0. by apply Hs0.
      - apply Hleast. rewrite <- Hperm. left. }
    by rewrite filter_cons_True.
Qed.

End Ranking.

Section Suggestions.
Context `{Imports}.

Let entry (typo word : JsString) : Suggestion :=
  {| distance := levenshteinDistance typo word; word := word |}.

Lemma filter_map_entry typo d wl :
  filter (fun s => distance s = d) (List.map (entry typo) wl)
  = List.map (entry typo) (filter (fun w => levenshteinDistance typo w = d) wl).
Proof.
  induction wl as [|w wl IH]; [done|]. simpl.
  rewrite !filter_cons, IH. simpl. by case_decide.
Qed.

(** C3: [wordSuggestions] pairs every word of the language's list with its
    edit distance to the typo and returns the pairs in non-decreasing
    order of distance, entries of equal distance in word-list order; when
    the typo is itself a word of the list, the result starts with that
    word at distance 0. *)
Theorem wordSuggestions_ranked (typo : JsString) (language : MnemonicLanguages) :
  let wordList := getWordList (Some language) in
  let paired word := {| distance := levenshteinDistance typo word; word := word |} in
  Permutation (wordSuggestions typo language) (List.map paired wordList)
  /\ StronglySorted (fun a b => (distance a <= distance b)%Z) (wordSuggestions typo language)
  /\ (forall d,
        filter (fun s => distance s = d) (wordSuggestions typo language)
        = List.map paired (filter (fun word => levenshteinDistance typo word = d) wordList))
  /\ (typo ∈ wordList ->
      head (wordSuggestions typo language) = Some {| distance := 0; word := typo |}).
Proof.
  intros wordList paired. unfold wordSuggestions. fold wordList.
  change (fun word => {| distance := levenshteinDistance typo word; word := word |})
    with (entry typo).
  change paired with (entry typo).
  split; [apply sort_Permutation|]. split; [apply sort_sorted|].
  split; [intros d; by rewrite sort_stable, filter_map_entry|].
  intros Htypo.
  assert (distance (entry typo typo) = 0%Z) as Hzero
      by (simpl; by apply levenshteinDistance_zero).
  rewrite (sort_head_least distance _ (entry typo typo) 0%Z).
  - rewrite filter_map_entry.
    assert (forall wl, typo ∈ wl ->
              head (List.map (entry typo)
                      (filter (fun w => levenshteinDistance typo w = 0%Z) wl))
              = Some (entry typo typo)) as Hhead.
    { induction wl as [|w wl IH]; intros Hin; [by apply elem_of_nil in Hin|].
      rewrite filter_cons. case_decide as Hw.
      - apply levenshteinDistance_zero in Hw as <-. done.
      - apply elem_of_cons in Hin as [->|Hin]; [|by apply IH].
        exfalso. apply Hw. by apply levenshteinDistance_zero. }
    rewrite Hhead by done. unfold entry in *. simpl in Hzero. by rewrite Hzero.
  - done.
  - apply list_elem_of_fmap. by exists typo.
  - intros y Hy. apply list_elem_of_fmap in Hy as (w & -> & _).
    simpl. unfold levenshteinDistance. lia.
Qed.

End Suggestions.

(** ** Generators and ordered maps *)

Section Generators.
Context {A B : Type}.

Lemma for_each_yield (f : A -> B) (items : list A) :
  Gen.for_each items (fun a => Gen.yield (f a)) = mkGen (List.map f items) false.
Proof.
  induction items as [|a items IH]; [done|].
  unfold Gen.for_each in *. simpl. by rewrite IH.
Qed.

Lemma for_of_yield (f : A -> B) (g : Gen A) :
  Gen.for_of g (fun a => Gen.yield (f a)) = mkGen (List.map f (yields g)) (threw g).
Proof.
  unfold Gen.for_of. rewrite for_each_yield. unfold Gen.seq. simpl.
  by rewrite app_nil_r.
Qed.

Lemma for_each_filter (p : A -> bool) (items : list A) :
  Gen.for_each items (fun a => if p a then Gen.yield a else Gen.ret)
  = mkGen (List.filter p items) false.
Proof.
  induction items as [|a items IH]; [done|].
  unfold Gen.for_each in *. simpl. rewrite IH. by destruct (p a).
Qed.

Lemma for_of_filter (p : A -> bool) (g : Gen A) :
  Gen.for_of g (fun a => if p a then Gen.yield a else Gen.ret)
  = mkGen (List.filter p (yields g)) (threw g).
Proof.
  unfold Gen.for_of. rewrite for_each_filter. unfold Gen.seq. simpl.
  by rewrite app_nil_r.
Qed.

Lemma for_of_throw (body : A -> Gen B) : Gen.for_of Gen.throw body = Gen.throw.
Proof. reflexivity. Qed.

End Generators.

Section OrderedMaps.
Context {V : Type}.

Lemma orderedSet_fresh (k : nat) (v : V) (m : list (nat * V)) :
  k ∉ List.map fst m -> Js.orderedSet k v m = m ++ [(k, v)].
Proof.
  induction m as [|[k' v'] m IH]; simpl; intros Hk; [done|].
  apply not_elem_of_cons in Hk as [Hne Hk].
  destruct (Nat.eqb_spec k' k) as [->|_]; [done|]. by rewrite IH.
Qed.

Lemma newOrderedMap_from (acc entries : list (nat * V)) :
  NoDup (List.map fst (acc ++ entries)) ->
  foldl (fun m kv => Js.orderedSet kv.1 kv.2 m) acc entries = acc ++ entries.
Proof.
  revert acc. induction entries as [|[k v] entries IH]; intros acc Hnd; simpl.
  - by rewrite app_nil_r.
  - rewrite orderedSet_fresh.
    + rewrite IH; rewrite <- app_assoc; done.
    + rewrite map_app in Hnd. apply NoDup_app in Hnd as (_ & Hdisj & _).
      intros Hk. apply (Hdisj k Hk). left.
Qed.

(** A list of entries with distinct keys is the map built from it. *)
Lemma newOrderedMap_NoDup (entries : list (nat * V)) :
  NoDup (List.map fst entries) -> Js.newOrderedMap entries = entries.
Proof. intros Hnd. unfold Js.newOrderedMap. by rewrite newOrderedMap_from. Qed.

End OrderedMaps.

(** ** The combinatorial enumeration *)

Section Engine.

Implicit Types (spots rest : SpotSuggestions) (suggestions : SuggestionsByDistance).

Lemma remainingSpots_cons index suggestions rest :
  NoDup (List.map fst ((index, suggestions) :: rest)) ->
  remainingSpots ((index, suggestions) :: rest) index = rest.
Proof.
  intros Hnd. unfold remainingSpots. simpl. rewrite Nat.eqb_refl. simpl.
  apply NoDup_cons in Hnd as [Hfresh Hnd].
  assert (List.filter (fun entry : nat * list Suggestion => negb (entry.1 =? index)) rest
          = rest) as ->.
  { clear Hnd. induction rest as [|[k v] rest IH]; [done|]. simpl in *.
    apply not_elem_of_cons in Hfresh as [Hne Hfresh].
    destruct (Nat.eqb_spec k index) as [->|_]; [done|]. simpl. by rewrite IH. }
  by apply newOrderedMap_NoDup.
Qed.

Lemma reached_mono d d' w :
  (d <= d')%Z -> Weight.reached d w = true -> Weight.reached d' w = true.
Proof. destruct w; simpl; [|done]. intros. apply Z.leb_le. apply Z.leb_le in H0. lia. Qed.

Lemma filter_all {A} (P : A -> Prop) `{forall x, Decision (P x)} (l : list A) :
  Forall P l -> filter P l = l.
Proof. induction 1; [done|]. rewrite filter_cons_True by done. by f_equal. Qed.

Lemma filter_none {A} (P : A -> Prop) `{forall x, Decision (P x)} (l : list A) :
  Forall (fun x => ~ P x) l -> filter P l = [].
Proof. induction 1; [done|]. by rewrite filter_cons_False. Qed.

Lemma skipBelow_ranked minWeight suggestions :
  StronglySorted (fun a b => (distance a <= distance b)%Z) suggestions ->
  skipBelow minWeight suggestions
  = filter (fun s => Weight.reached (distance s) minWeight = true) suggestions.
Proof.
  induction 1 as [|s suggestions Hsorted IH Hs]; [done|]. simpl.
  destruct (Weight.reached (distance s) minWeight) eqn:Hr.
  - symmetry. apply filter_all. constructor; [done|].
    eapply Forall_impl; [exact Hs|]. simpl. intros s' Hle. by eapply reached_mono.
  - rewrite filter_cons_False by congruence. done.
Qed.

Lemma yieldBelow_ranked maxWeight suggestions :
  StronglySorted (fun a b => (distance a <= distance b)%Z) suggestions ->
  yieldBelow maxWeight suggestions
  = filter (fun s => Weight.reached (distance s) maxWeight = false) suggestions.
Proof.
  induction 1 as [|s suggestions Hsorted IH Hs]; [done|]. simpl.
  destruct (Weight.reached (distance s) maxWeight) eqn:Hr.
  - symmetry. apply filter_none. constructor; [congruence|].
    eapply Forall_impl; [exact Hs|]. simpl. intros s' Hle.
    rewrite (reached_mono _ _ _ Hle Hr). congruence.
  - rewrite filter_cons_True by done. by f_equal.
Qed.

Lemma StronglySorted_filter {A} (R : A -> A -> Prop) (P : A -> Prop)
    `{forall x, Decision (P x)} (l : list A) :
  StronglySorted R l -> StronglySorted R (filter P l).
Proof.
  induction 1 as [|x l Hl IH Hx]; [constructor|].
  rewrite filter_cons. case_decide; [|done]. constructor; [done|].
  rewrite Forall_forall in *. intros y Hy. apply Hx.
  by apply list_elem_of_filter in Hy as [_ Hy].
Qed.

(** On a ranked list the two loops of [suggestionsInRange] select the
    suggestions whose distance lies in the window, in list order. *)
Lemma suggestionsInRange_ranked suggestions minWeight maxWeight :
  StronglySorted (fun a b => (distance a <= distance b)%Z) suggestions ->
  suggestionsInRange suggestions minWeight maxWeight
  = filter (inWindow minWeight maxWeight) suggestions.
Proof.
  intros Hsorted. unfold suggestionsInRange.
  rewrite (skipBelow_ranked _ _ Hsorted).
  rewrite yieldBelow_ranked by by apply StronglySorted_filter.
  rewrite list_filter_filter. apply list_filter_iff. unfold inWindow. tauto.
Qed.

Lemma suggestionsInRange_default suggestions :
  Forall (fun s => (0 <= distance s)%Z) suggestions ->
  suggestionsInRange suggestions (Finite 0) Infinity = suggestions.
Proof.
  unfold suggestionsInRange. induction 1 as [|s suggestions Hs _ IH]; [done|].
  simpl. destruct (0 <=? distance s)%Z eqn:Hle; [|apply Z.leb_gt in Hle; lia].
  simpl. f_equal. clear. induction suggestions as [|s suggestions IH]; [done|].
  simpl. by rewrite IH.
Qed.

Lemma combineSuggestions_rec_unfold depth spots minWeight maxWeight :
  combineSuggestions_rec depth spots minWeight maxWeight =
    match spots with
    | [] => Gen.throw
    | (index, suggestions) :: _ =>
        if Weight.negative minWeight || Weight.negative maxWeight then Gen.throw
        else
          let inRange := suggestionsInRange suggestions minWeight maxWeight in
          if length spots =? 1 then
            Gen.for_each inRange (fun suggestion => Gen.yield [(index, word suggestion)])
          else
            match depth with
            | O => Gen.ret
            | S depth' =>
                combineLoop
                  (combineSuggestions_rec depth' (remainingSpots spots index) (Finite 0))
                  index maxWeight inRange
            end
    end.
Proof. by destruct depth. Qed.

Lemma combineSuggestions_single index suggestions minWeight maxWeight :
  Weight.negative minWeight = false -> Weight.negative maxWeight = false ->
  combineSuggestions [(index, suggestions)] minWeight maxWeight
  = mkGen (List.map (fun s => [(index, word s)])
             (suggestionsInRange suggestions minWeight maxWeight)) false.
Proof.
  intros Hmin Hmax. unfold combineSuggestions.
  rewrite combineSuggestions_rec_unfold, Hmin, Hmax. simpl.
  apply for_each_yield.
Qed.

Lemma combineSuggestions_cons index suggestions rest minWeight maxWeight :
  NoDup (List.map fst ((index, suggestions) :: rest)) -> rest <> [] ->
  Weight.negative minWeight = false -> Weight.negative maxWeight = false ->
  combineSuggestions ((index, suggestions) :: rest) minWeight maxWeight
  = combineLoop (combineSuggestions rest (Finite 0)) index maxWeight
      (suggestionsInRange suggestions minWeight maxWeight).
Proof.
  intros Hnd Hrest Hmin Hmax. unfold combineSuggestions at 1.
  rewrite combineSuggestions_rec_unfold, Hmin, Hmax.
  rewrite remainingSpots_cons by done.
  destruct rest as [|entry rest]; [done|]. reflexivity.
Qed.

Lemma orderedSet_length {V} (k : nat) (v : V) (m : list (nat * V)) :
  length (Js.orderedSet k v m) <= S (length m).
Proof.
  induction m as [|[k' v'] m IH]; simpl; [lia|].
  destruct (Nat.eqb k' k); simpl; lia.
Qed.

Lemma newOrderedMap_length {V} (entries : list (nat * V)) :
  length (Js.newOrderedMap entries) <= length entries.
Proof.
  unfold Js.newOrderedMap.
  assert (forall acc : list (nat * V),
             length (foldl (fun m kv => Js.orderedSet kv.1 kv.2 m) acc entries)
             <= length acc + length entries) as Hfrom.
  { induction entries as [|[k v] entries IH]; intros acc; simpl; [lia|].
    specialize (IH (Js.orderedSet k v acc)).
    pose proof (orderedSet_length k v acc). lia. }
  apply (Hfrom []).
Qed.

(** The map handed to the nested call is smaller than the map in hand. *)
Lemma remainingSpots_shorter index suggestions rest :
  length (remainingSpots ((index, suggestions) :: rest) index) <= length rest.
Proof.
  unfold remainingSpots. simpl. rewrite Nat.eqb_refl. simpl.
  etransitivity; [apply newOrderedMap_length|]. apply List.filter_length_le.
Qed.

Lemma combineLoop_ext recurse recurse' index maxWeight iterator :
  (forall W, recurse W = recurse' W) ->
  combineLoop recurse index maxWeight iterator
  = combineLoop recurse' index maxWeight iterator.
Proof.
  intros Hext. induction iterator as [|s iterator IH]; [done|].
  simpl. by rewrite Hext, IH.
Qed.

(** The bound on the nesting never runs out: any bound from the size of the
    map on gives the same run. *)
Lemma combineSuggestions_rec_enough depth spots minWeight maxWeight :
  length spots <= depth ->
  combineSuggestions_rec depth spots minWeight maxWeight
  = combineSuggestions spots minWeight maxWeight.
Proof.
  unfold combineSuggestions.
  assert (forall d1 d2 spots minWeight maxWeight,
             length spots <= d1 -> length spots <= d2 ->
             combineSuggestions_rec d1 spots minWeight maxWeight
             = combineSuggestions_rec d2 spots minWeight maxWeight) as Hany.
  { clear. induction d1 as [|d1 IH]; intros d2 spots minWeight maxWeight H1 H2.
    - destruct spots; [|simpl in H1; lia]. by destruct d2.
    - rewrite !(combineSuggestions_rec_unfold _ spots).
      destruct spots as [|[index suggestions] rest]; [done|].
      destruct (Weight.negative minWeight || Weight.negative maxWeight); [done|].
      destruct (length ((index, suggestions) :: rest) =? 1); [done|].
      destruct d2 as [|d2]; [simpl in H2; lia|].
      apply combineLoop_ext. intros W.
      pose proof (remainingSpots_shorter index suggestions rest).
      simpl in H1, H2. apply IH; lia. }
  intros Hdepth. by apply Hany.
Qed.

(** C9: [combineSuggestions] called on an empty map, or with a negative
    [minWeight] or [maxWeight], throws: the generator yields nothing and
    ends with the error, and a [for ... of] loop that consumes it ends with
    that error too. *)
Theorem combineSuggestions_rejects spots minWeight maxWeight :
  spots = [] \/ Weight.negative minWeight = true \/ Weight.negative maxWeight = true ->
  combineSuggestions spots minWeight maxWeight = Gen.throw
  /\ forall (body : list (nat * JsString) -> Gen JsString),
       Gen.for_of (combineSuggestions spots minWeight maxWeight) body = Gen.throw.
Proof.
  intros Hbad.
  assert (combineSuggestions spots minWeight maxWeight = Gen.throw) as ->.
  { unfold combineSuggestions. rewrite combineSuggestions_rec_unfold.
    destruct spots as [|[index suggestions] spots]; [done|].
    destruct Hbad as [?|[->| ->]]; [done|done|]. by rewrite orb_true_r. }
  done.
Qed.

Lemma elem_of_concat {A} (x : A) (blocks : list (list A)) :
  x ∈ concat blocks -> exists block, x ∈ block /\ block ∈ blocks.
Proof.
  induction blocks as [|b blocks IH]; simpl; [by intros ?%elem_of_nil|].
  intros [Hx|Hx]%elem_of_app.
  - exists b. split; [done|left].
  - destruct (IH Hx) as (block & ? & ?). exists block. split; [done|by right].
Qed.

Lemma window_not_negative (iterated : SuggestionsByDistance) maxWeight k s :
  StronglySorted (fun a b => (distance a <= distance b)%Z) iterated ->
  Forall (fun s => Weight.reached (distance s) maxWeight = false) iterated ->
  iterated !! k = Some s ->
  Weight.negative (siblingWindow iterated maxWeight k s) = false.
Proof.
  intros Hsorted Hbelow Hk. unfold siblingWindow.
  destruct (iterated !! S k) as [next|] eqn:Hnext; simpl.
  - apply Z.ltb_ge.
    apply (take_drop_middle _ _ _) in Hk. rewrite <- Hk in Hsorted.
    apply StronglySorted_app_1_r, StronglySorted_inv in Hsorted as [_ Hs].
    rewrite Forall_forall in Hs.
    assert (next ∈ drop (S k) iterated) as Hin.
    { apply list_elem_of_lookup. exists 0. by rewrite lookup_drop, Nat.add_0_r. }
    specialize (Hs _ Hin). lia.
  - rewrite Forall_forall in Hbelow.
    assert (s ∈ iterated) as Hin by (apply list_elem_of_lookup; eauto).
    specialize (Hbelow _ Hin). destruct maxWeight as [z|]; simpl in *; [|done].
    apply Z.ltb_ge. apply Z.leb_gt in Hbelow. lia.
Qed.

(** The loop runs through the iterated suggestions in order; each heads the
    assignments that the nested enumeration yields in its window. *)
Lemma combineLoop_windows recurse index maxWeight (iterated : SuggestionsByDistance) :
  (forall W, Weight.negative W = false -> threw (recurse W) = false) ->
  StronglySorted (fun a b => (distance a <= distance b)%Z) iterated ->
  Forall (fun s => Weight.reached (distance s) maxWeight = false) iterated ->
  combineLoop recurse index maxWeight iterated
  = mkGen
      (concat
         (imap (fun k s =>
                  List.map (cons (index, word s))
                    (yields (recurse (siblingWindow iterated maxWeight k s))))
               iterated))
      false.
Proof.
  intros Hrecurse Hsorted Hbelow.
  induction iterated as [|s iterated IH]; [done|].
  pose proof (window_not_negative (s :: iterated) maxWeight 0 s Hsorted Hbelow eq_refl)
    as Hwindow.
  apply StronglySorted_inv in Hsorted as [Hsorted _].
  apply Forall_cons in Hbelow as [_ Hbelow].
  simpl. rewrite (IH Hsorted Hbelow), for_of_yield. rewrite head_lookup.
  change (Weight.sub _ (distance s)) with (siblingWindow (s :: iterated) maxWeight 0 s).
  rewrite (Hrecurse _ Hwindow). unfold Gen.seq. simpl.
do 2 f_equal.
Qed.

(** Every assignment yielded picks one suggestion for each position, and the
    distances picked sum up to less than the end of the window. *)
Lemma combineSuggestions_sound spots :
  spots <> [] -> wellFormed spots ->
  forall minWeight maxWeight,
    Weight.negative minWeight = false -> Weight.negative maxWeight = false ->
    threw (combineSuggestions spots minWeight maxWeight) = false
    /\ forall a, a ∈ yields (combineSuggestions spots minWeight maxWeight) ->
         exists total, chosen spots a total /\ (0 <= total)%Z /\ below total maxWeight.
Proof.
  induction spots as [|[index suggestions] rest IH]; [done|].
  intros _ [Hnd Hranked] minWeight maxWeight Hmin Hmax.
  apply Forall_cons in Hranked as [[Hpos Hsorted] Hranked]. simpl in Hpos, Hsorted.
  pose proof (suggestionsInRange_ranked suggestions minWeight maxWeight Hsorted) as Hrange.
  assert (Forall (fun s => s ∈ suggestions /\ Weight.reached (distance s) maxWeight = false)
            (suggestionsInRange suggestions minWeight maxWeight)) as Hin.
  { rewrite Hrange, Forall_forall. intros s Hs.
    apply list_elem_of_filter in Hs as [[_ Hs] Hin]. done. }
  assert (StronglySorted (fun a b => (distance a <= distance b)%Z)
            (suggestionsInRange suggestions minWeight maxWeight)) as Hsorted'.
  { rewrite Hrange. by apply StronglySorted_filter. }
  rewrite Forall_forall in Hpos.
  destruct (decide (rest = [])) as [->|Hrest].
  - rewrite combineSuggestions_single by done. split; [done|]. simpl.
    intros a Ha. apply list_elem_of_fmap in Ha as (s & -> & Hs).
    rewrite Forall_forall in Hin. destruct (Hin s Hs) as [Hs' Hbelow].
    exists (distance s + 0)%Z. split; [by repeat constructor|].
    specialize (Hpos s Hs'). split; [lia|].
    destruct maxWeight as [z|]; simpl in *; [|done]. apply Z.leb_gt in Hbelow. lia.
  - rewrite combineSuggestions_cons by done.
    assert (wellFormed rest) as Hwf.
    { split; [|done]. simpl in Hnd. by apply NoDup_cons in Hnd as [_ ?]. }
    specialize (IH Hrest Hwf (Finite 0)).
    rewrite combineLoop_windows; [|intros W HW; by apply IH|done|].
    2: { eapply Forall_impl; [exact Hin|]. by intros s [_ ?]. }
    split; [done|]. simpl. intros a Ha.
    apply elem_of_concat in Ha as (block & Ha & Hblock).
    apply list_elem_of_lookup in Hblock as (k & Hk).
    rewrite list_lookup_imap in Hk.
    destruct (suggestionsInRange suggestions minWeight maxWeight !! k) as [s|] eqn:Hs;
      [|done].
    injection Hk as <-. apply list_elem_of_fmap in Ha as (tail & -> & Htail).
    assert (Weight.negative
              (siblingWindow (suggestionsInRange suggestions minWeight maxWeight)
                 maxWeight k s) = false) as Hwindow.
    { apply window_not_negative; [done| |done].
      eapply Forall_impl; [exact Hin|]. by intros ? [_ ?]. }
    destruct (IH _ eq_refl Hwindow) as [_ Hsound].
    destruct (Hsound tail Htail) as (total & Hchosen & Htotal & Hbelow).
    rewrite Forall_forall in Hin.
    assert (s ∈ suggestionsInRange suggestions minWeight maxWeight) as Hs'
        by (apply list_elem_of_lookup; eauto).
    destruct (Hin s Hs') as [Hs'' Hmax'].
    exists (distance s + total)%Z. split; [by constructor|].
    specialize (Hpos s Hs''). split; [lia|].
    unfold siblingWindow in Hbelow.
    destruct (suggestionsInRange suggestions minWeight maxWeight !! S k) as [next|] eqn:Hnext.
    + assert (next ∈ suggestionsInRange suggestions minWeight maxWeight) as Hnext'
          by (apply list_elem_of_lookup; eauto).
      destruct (Hin next Hnext') as [_ Hnmax]. simpl in Hbelow.
      destruct maxWeight as [z|]; simpl in *; [|done]. apply Z.leb_gt in Hnmax. lia.
    + destruct maxWeight as [z|]; simpl in *; [|done]. lia.
Qed.

(** C2: in the enumeration over a map of at least two positions, the
    ranked suggestions of the head position are iterated in list order,
    that is by ascending distance; the suggestion of distance d heads the
    assignments that the nested enumeration of the remaining positions
    yields for the window from 0 to the distance of the next suggestion
    iterated at the head less d, a window without upper end when no
    suggestion is left at the head; every assignment the nested
    enumeration yields for a window picks suggestions whose distances sum
    up to a total inside it.  With one position left, the enumeration
    yields each of its suggestions inside the window in force. *)
Theorem combineSuggestions_windowed index suggestions rest :
  wellFormed ((index, suggestions) :: rest) ->
  rest <> [] ->
  combineSuggestions ((index, suggestions) :: rest) (Finite 0) Infinity
  = mkGen
      (concat
         (imap (fun k s =>
                  List.map (cons (index, word s))
                    (yields
                       (combineSuggestions rest (Finite 0)
                          (match suggestions !! S k with
                           | Some next => Finite (distance next - distance s)
                           | None => Infinity
                           end))))
               suggestions))
      false
  /\ (forall minWeight maxWeight,
        Weight.negative minWeight = false -> Weight.negative maxWeight = false ->
        let iterated := filter (inWindow minWeight maxWeight) suggestions in
        combineSuggestions ((index, suggestions) :: rest) minWeight maxWeight
        = mkGen
            (concat
               (imap (fun k s =>
                        List.map (cons (index, word s))
                          (yields
                             (combineSuggestions rest (Finite 0)
                                (siblingWindow iterated maxWeight k s))))
                     iterated))
            false)
  /\ (forall window a,
        Weight.negative window = false ->
        a ∈ yields (combineSuggestions rest (Finite 0) window) ->
        exists total, chosen rest a total /\ (0 <= total)%Z /\ below total window)
  /\ (forall position ranking minWeight maxWeight,
        ranked ranking ->
        Weight.negative minWeight = false -> Weight.negative maxWeight = false ->
        combineSuggestions [(position, ranking)] minWeight maxWeight
        = mkGen (List.map (fun s => [(position, word s)])
                   (filter (inWindow minWeight maxWeight) ranking))
                false).
Proof.
  intros [Hnd Hranked] Hrest.
  apply Forall_cons in Hranked as [[Hpos Hsorted] Hranked]. simpl in Hpos, Hsorted.
  assert (wellFormed rest) as Hwf.
  { split; [|done]. simpl in Hnd. by apply NoDup_cons in Hnd as [_ ?]. }
  assert (forall minWeight maxWeight,
        Weight.negative minWeight = false -> Weight.negative maxWeight = false ->
        let iterated := filter (inWindow minWeight maxWeight) suggestions in
        combineSuggestions ((index, suggestions) :: rest) minWeight maxWeight
        = mkGen
            (concat
               (imap (fun k s =>
                        List.map (cons (index, word s))
                          (yields
                             (combineSuggestions rest (Finite 0)
                                (siblingWindow iterated maxWeight k s))))
                     iterated))
            false) as Hgeneral.
  { intros minWeight maxWeight Hmin Hmax iterated.
    rewrite combineSuggestions_cons by done.
    rewrite suggestionsInRange_ranked by done. fold iterated.
    apply combineLoop_windows.
    - intros W HW. by apply combineSuggestions_sound.
    - by apply StronglySorted_filter.
    - apply Forall_forall. intros s Hs.
      by apply list_elem_of_filter in Hs as [[_ Hs] _]. }
  split; [|split; [exact Hgeneral|split]].
  - rewrite (Hgeneral (Finite 0) Infinity) by done.
    rewrite <- suggestionsInRange_ranked, suggestionsInRange_default by done.
    f_equal. f_equal. apply imap_ext. intros k s _. simpl. unfold siblingWindow.
    by destruct (suggestions !! S k).
  - intros window a Hwindow Ha.
    by apply (combineSuggestions_sound rest Hrest Hwf (Finite 0) window).
  - intros position ranking minWeight maxWeight [_ Hs] Hmin Hmax.
    rewrite combineSuggestions_single by done.
    by rewrite suggestionsInRange_ranked.
Qed.

End Engine.

(** ** The correction orchestrator *)

Section Orchestrator.
Context `{Imports}.

Lemma map_imap {A B C} (g : B -> C) (f : nat -> A -> B) (l : list A) :
  List.map g (imap f l) = imap (fun i x => g (f i x)) l.
Proof.
  revert f. induction l as [|x l IH]; intros f; [done|].
  simpl. f_equal. apply IH.
Qed.

Lemma keys_imap {A V} (f : A -> V) (l : list A) (n : nat) :
  List.map fst (imap (fun i x => (n + i, f x)) l) = seq n (length l).
Proof.
  revert n. induction l as [|x l IH]; intros n; [done|].
  simpl. rewrite Nat.add_0_r. f_equal. rewrite <- IH.
  f_equal. apply imap_ext. intros i y _. simpl. f_equal. lia.
Qed.

Lemma wordSuggestions_is_ranked typo language : ranked (wordSuggestions typo language).
Proof.
  unfold wordSuggestions. split; [|apply sort_sorted].
  rewrite Forall_forall. intros s Hs.
  rewrite sort_Permutation in Hs. apply list_elem_of_fmap in Hs as (w & -> & _).
  simpl. unfold levenshteinDistance. lia.
Qed.

(** The map built for a phrase has one ranked entry per token position. *)
Lemma spotSuggestions_wellFormed words language :
  wellFormed (imap (fun index word => (index, wordSuggestions word language)) words).
Proof.
  split.
  - rewrite (keys_imap (fun word => wordSuggestions word language) words 0).
    apply NoDup_seq.
  - rewrite Forall_forall. intros entry Hentry.
    apply list_elem_of_lookup in Hentry as (i & Hi).
    rewrite list_lookup_imap in Hi. destruct (words !! i); [|done].
    injection Hi as <-. apply wordSuggestions_is_ranked.
Qed.

Lemma suggestUnvalidatedCorrections_candidates words language :
  words <> [] ->
  suggestUnvalidatedCorrections words language
  = mkGen
      (List.map
         (fun replacementList =>
            joinMnemonic
              (imap (fun i word => default word (Js.newMap replacementList !! i)) words)
              (Some language))
         (yields
            (combineSuggestions
               (imap (fun index word => (index, wordSuggestions word language)) words)
               (Finite 0) Infinity)))
      false.
Proof.
  intros Hwords. unfold suggestUnvalidatedCorrections.
  rewrite length_imap. destruct (length words =? 0) eqn:Hlen.
  { apply Nat.eqb_eq in Hlen. by destruct words. }
  rewrite map_imap. simpl.
  pose proof (spotSuggestions_wellFormed words language) as Hwf.
  rewrite newOrderedMap_NoDup by apply Hwf.
  rewrite for_of_yield. f_equal.
  apply combineSuggestions_sound; [by destruct words|done|done|done].
Qed.

(** C4: with the language resolved, [suggestCorrections] yields, in the
    order of the enumeration, the candidate phrases that pass the bip39
    checksum validator with the word list of that language; a candidate
    that fails validation is not yielded.  The candidates are the
    assignments enumerated by [combineSuggestions] over the suggestions of
    all token positions, each turned into a phrase by substituting its
    replacements for the tokens at their positions and joining the result. *)
Theorem suggestCorrections_validated mnemonic language lang :
  let words := splitMnemonic mnemonic in
  match language with Some l => Some l | None => detectLanguage words None end = Some lang ->
  let spotSuggestions :=
    imap (fun index word => (index, wordSuggestions word lang)) words in
  let substituted replacementList :=
    joinMnemonic
      (imap (fun i word => default word (Js.newMap replacementList !! i)) words)
      (Some lang) in
  let candidates :=
    List.map substituted (yields (combineSuggestions spotSuggestions (Finite 0) Infinity)) in
  let valid phrase := bip39_validateMnemonic phrase (getWordList (Some lang)) in
  suggestCorrections mnemonic language = mkGen (List.filter valid candidates) false
  /\ Forall (fun phrase => valid phrase = true) (yields (suggestCorrections mnemonic language))
  /\ (forall phrase,
        phrase ∈ candidates -> valid phrase = false ->
        phrase ∉ yields (suggestCorrections mnemonic language)).
Proof.
  intros words Hlang spotSuggestions substituted candidates valid.
  assert (suggestCorrections mnemonic language = mkGen (List.filter valid candidates) false)
    as ->.
  { unfold suggestCorrections. fold words. rewrite Hlang.
    rewrite suggestUnvalidatedCorrections_candidates
      by apply split_ws_from_nonempty.
    by rewrite for_of_filter. }
  simpl. split; [done|]. split.
  - apply Forall_forall. intros phrase Hphrase.
    apply list_elem_of_In, filter_In in Hphrase. tauto.
  - intros phrase _ Hinvalid Hphrase.
    apply list_elem_of_In, filter_In in Hphrase. destruct Hphrase. congruence.
Qed.

Lemma detectLanguage_no_match words :
  Forall (fun word => forall l, word ∉ getWordList (Some l)) words ->
  detectLanguage words None = None.
Proof.
  intros Hwords. rewrite detectLanguage_winners.
  assert (forall c, languageScore words c = 0) as Hscore.
  { intros c. rewrite languageScore_count. rewrite filter_none; [done|].
    eapply Forall_impl; [exact Hwords|]. simpl. auto. }
  simpl. rewrite !Hscore. simpl. by rewrite orb_true_r.
Qed.

(** C7: when no language is given and detection on the tokens of the
    phrase finds none, [suggestCorrections] yields nothing and returns.
    The empty phrase is such a case: its only token is the empty string,
    which is a word of no list. *)
Theorem suggestCorrections_no_language :
  (forall mnemonic,
      detectLanguage (splitMnemonic mnemonic) None = None ->
      suggestCorrections mnemonic None = Gen.ret)
  /\ ((forall l, [] ∉ getWordList (Some l)) ->
      detectLanguage (splitMnemonic []) None = None
      /\ suggestCorrections [] None = mkGen [] false).
Proof.
  assert (forall mnemonic,
             detectLanguage (splitMnemonic mnemonic) None = None ->
             suggestCorrections mnemonic None = Gen.ret) as Hnone.
  { intros mnemonic Hdetect. unfold suggestCorrections. by rewrite Hdetect. }
  split; [exact Hnone|]. intros Hwords.
  assert (detectLanguage (splitMnemonic []) None = None) as Hdetect.
  { apply detectLanguage_no_match. by repeat constructor. }
  split; [done|]. by apply Hnone.
Qed.

End Orchestrator.

(** ** The statements on the sample instance *)

Section Samples.

Local Existing Instance sampleImports.

(** Detection on the sample lists: a clear winner, a tie between Spanish and
    Portuguese, no token at all, and a candidate listed twice. *)
Example detectLanguage_samples :
  detectLanguage [utf16 "cat"; utf16 "chat"; utf16 "dog"] None = Some english
  /\ detectLanguage [utf16 "gato"] None = None
  /\ detectLanguage [] None = None
  /\ detectLanguage [utf16 "gato"] (Some [spanish; italian]) = Some spanish
  /\ detectLanguage [utf16 "gato"] (Some [spanish; spanish]) = None.
Proof. repeat split; by vm_compute. Qed.

(** The languages are tried in order up to the first one accepted. *)
Example validateMnemonic_samples :
  validateMnemonic (utf16 "gato gato") None None = true
  /\ validateMnemonic_probes bip39Wrapper (utf16 "gato gato") getAllLanguages
     = [chinese_simplified; chinese_traditional; english; french; italian;
        japanese; korean; spanish]
  /\ validateMnemonic (utf16 "gato dog") None None = false
  /\ validateMnemonic (utf16 "gato") None (Some english) = false.
Proof. repeat split; by vm_compute. Qed.

(** Three positions: the windows nest. *)
Example combineSuggestions_three_positions :
  yields
    (combineSuggestions
       [(0, [ {| distance := 0; word := utf16 "a" |};
              {| distance := 2; word := utf16 "b" |} ]);
        (1, [ {| distance := 0; word := utf16 "c" |};
              {| distance := 1; word := utf16 "d" |} ]);
        (2, [ {| distance := 0; word := utf16 "e" |};
              {| distance := 1; word := utf16 "f" |} ])]
       (Finite 0) Infinity)
  = [ [(0, utf16 "a"); (1, utf16 "c"); (2, utf16 "e")];
      [(0, utf16 "a"); (1, utf16 "d"); (2, utf16 "e")];
      [(0, utf16 "b"); (1, utf16 "c"); (2, utf16 "e")];
      [(0, utf16 "b"); (1, utf16 "d"); (2, utf16 "e")];
      [(0, utf16 "b"); (1, utf16 "d"); (2, utf16 "f")] ].
Proof. by vm_compute. Qed.

(** When two words of a list collapse to one stripped form, as [cote] and
    [côté] do in the French sample list, the accent map keeps the later one
    and it answers for both. *)
Example accent_collision_keeps_later_word :
  utf16 "cote" ∈ getWordList (Some french)
  /\ normalizeMnemonic (utf16 "cote") (Some french) = [99; 244; 116; 233]%N
  /\ normalizeMnemonic [99; 244; 116; 233]%N (Some french) = [99; 244; 116; 233]%N.
Proof. split; [by left|]. split; by vm_compute. Qed.

Lemma normalizeMnemonic_canonical_witness :
  normalizeMnemonic [97; 241; 111]%N (Some spanish) = [97; 241; 111]%N.
Proof.
  apply (normalizeMnemonic_canonical spanish).
  - intros w Hw. simpl in Hw.
    repeat (apply elem_of_cons in Hw as [->|Hw]);
      [| |by apply elem_of_nil in Hw];
      (split; [split; [discriminate|repeat constructor]|reflexivity]).
  - intros _ w1 w2 Hw1 Hw2. simpl in Hw1, Hw2.
    repeat (apply elem_of_cons in Hw1 as [->|Hw1]);
      [| |by apply elem_of_nil in Hw1];
      repeat (apply elem_of_cons in Hw2 as [->|Hw2]);
      try (by apply elem_of_nil in Hw2); by vm_compute.
  - apply (bool_decide_unpack _). by vm_compute.
Defined.

Lemma normalizeMnemonic_restores_accents_witness :
  normalizeMnemonic (utf16 "cote") (Some french) = [99; 244; 116; 233]%N.
Proof.
  apply (proj2 (normalizeMnemonic_restores_accents french [99; 244; 116; 233]%N
                  eq_refl
                  ltac:(apply (bool_decide_unpack _); by vm_compute)
                  eq_refl
                  ltac:(split; [discriminate|repeat constructor])
                  eq_refl eq_refl)
               [utf16 "cote"] [utf16 "chat"]).
  - reflexivity.
  - repeat constructor. by vm_compute.
Defined.

Lemma wordSuggestions_ranked_witness :
  head (wordSuggestions (utf16 "cot") english)
  = Some {| distance := 0; word := utf16 "cot" |}.
Proof.
  apply (proj2 (proj2 (proj2 (wordSuggestions_ranked (utf16 "cot") english)))).
  apply (bool_decide_unpack _). by vm_compute.
Defined.

Lemma combineSuggestions_rejects_witness :
  combineSuggestions [] (Finite 0) Infinity = Gen.throw
  /\ combineSuggestions sampleSpots (Finite 0) (Finite (-1)) = Gen.throw.
Proof.
  split.
  - apply (combineSuggestions_rejects [] (Finite 0) Infinity). by left.
  - apply (combineSuggestions_rejects sampleSpots (Finite 0) (Finite (-1))).
    right; right. reflexivity.
Defined.

Lemma combineSuggestions_windowed_witness :
  combineSuggestions sampleSpots (Finite 0) Infinity
  = mkGen [ [(0, utf16 "cot"); (1, utf16 "dog")];
            [(0, utf16 "dog"); (1, utf16 "dog")];
            [(0, utf16 "dog"); (1, utf16 "cat")];
            [(0, utf16 "dog"); (1, utf16 "cot")] ] false.
Proof.
  assert (wellFormed sampleSpots) as Hwf.
  { split; [repeat constructor; set_solver|repeat constructor; simpl; lia]. }
  unfold sampleSpots in *.
  rewrite (proj1 (combineSuggestions_windowed 0 _ _ Hwf ltac:(discriminate))).
  by vm_compute.
Defined.

Lemma suggestCorrections_validated_witness :
  suggestCorrections (utf16 "cat dig") None
  = mkGen [utf16 "cot dog"; utf16 "dog dog"; utf16 "dog cat"; utf16 "dog cot"] false.
Proof.
  assert (detectLanguage (splitMnemonic (utf16 "cat dig")) None = Some english) as Hlang
    by (vm_compute; reflexivity).
  eapply eq_trans;
    [exact (proj1 (suggestCorrections_validated (utf16 "cat dig") None english Hlang))|].
  vm_compute. reflexivity.
Defined.

Lemma suggestCorrections_no_language_witness :
  suggestCorrections [] None = mkGen [] false
  /\ suggestCorrections (utf16 "gato") None = Gen.ret.
Proof.
  split.
  - apply (proj2 suggestCorrections_no_language).
    intros l. apply (bool_decide_unpack _). by destruct l; vm_compute.
  - apply (proj1 suggestCorrections_no_language). by vm_compute.
Defined.

End Samples.

(** * Further properties *)

(** ** Splitting and joining *)

Section SplitJoin.

Lemma join_interleave sep first rest :
  Js.join sep (first :: rest) = interleave first (List.map (fun tok => (sep, tok)) rest).
Proof.
  revert first. induction rest as [|tok rest IH]; intros first; [done|].
  simpl. by rewrite <- IH.
Qed.

Lemma joiner_whitespace (language : option MnemonicLanguages) :
  let joiner := if decide (language = Some japanese) then [0x3000%N] else [32%N] in
  joiner <> [] /\ whitespace joiner.
Proof. simpl. case_decide; split; try done; by repeat constructor. Qed.

Lemma split_join_tokens words language :
  words <> [] -> Forall token words ->
  splitMnemonic (joinMnemonic words language) = words.
Proof.
  intros Hne Htokens. destruct words as [|first rest]; [done|].
  apply Forall_cons in Htokens as [Hfirst Hrest].
  unfold joinMnemonic. rewrite join_interleave.
  destruct (joiner_whitespace language) as [Hsep Hws].
  pose proof (splitMnemonic_interleave [] first
                (List.map (fun tok => (if decide (language = Some japanese)
                                       then [0x3000%N] else [32%N], tok)) rest) []
                (List.Forall_nil _) (List.Forall_nil _) Hfirst) as Hsplit.
  simpl in Hsplit. rewrite app_nil_r in Hsplit. rewrite Hsplit.
  - f_equal. rewrite map_map. simpl. apply map_id.
  - apply Forall_forall. intros [sep tok] Hin.
    apply list_elem_of_fmap in Hin as (tok' & [= -> ->] & Htok).
    rewrite Forall_forall in Hrest. exact (conj Hsep (conj Hws (Hrest _ Htok))).
Qed.

Lemma trim_interleave first rest :
  token first -> Forall separated rest ->
  Js.trim (interleave first rest) = interleave first rest.
Proof.
  intros Hfirst Hrest.
  destruct (interleave_start first rest Hfirst Hrest) as (c & s & Heq & Hc).
  destruct (interleave_end first rest Hfirst Hrest) as (s' & c' & Heq' & Hc').
  destruct s' as [|d s'].
  - rewrite Heq'. simpl.
    pose proof (trim_single [] [] c' (List.Forall_nil _) (List.Forall_nil _) Hc') as Ht.
    exact Ht.
  - rewrite Heq' in Heq. simpl in Heq. injection Heq as -> <-. rewrite Heq'.
    pose proof (trim_core [] [] c s' c' (List.Forall_nil _) (List.Forall_nil _) Hc Hc') as Ht.
    simpl in Ht. by rewrite app_nil_r in Ht.
Qed.

(** X1: [splitMnemonic] undoes [joinMnemonic] on every non-empty list of
    word tokens, whatever the language: the ideographic space that joins
    Japanese phrases is white space to the tokenizer too.  The joined
    phrase has no white space at either end. *)
Theorem splitMnemonic_joinMnemonic words language :
  words <> [] -> Forall token words ->
  splitMnemonic (joinMnemonic words language) = words
  /\ Js.trim (joinMnemonic words language) = joinMnemonic words language.
Proof.
  intros Hne Htokens. split; [by apply split_join_tokens|].
  destruct words as [|first rest]; [done|].
  apply Forall_cons in Htokens as [Hfirst Hrest].
  unfold joinMnemonic. rewrite join_interleave. apply trim_interleave; [done|].
  destruct (joiner_whitespace language) as [Hsep Hws].
  apply Forall_forall. intros [sep tok] Hin.
  apply list_elem_of_fmap in Hin as (tok' & [= -> ->] & Htok).
  rewrite Forall_forall in Hrest. exact (conj Hsep (conj Hws (Hrest _ Htok))).
Qed.

(** The tokens of a phrase are word tokens, unless the phrase is white space
    only and its one token is empty. *)
Lemma splitMnemonic_tokens m :
  splitMnemonic m = [[]] \/ (splitMnemonic m <> [] /\ Forall token (splitMnemonic m)).
Proof.
  destruct (phrase_shape m)
    as [Hws|(lead & first & rest & trail & Hl & Ht & Hf & Hr & ->)].
  - left. by apply splitMnemonic_whitespace.
  - right. rewrite splitMnemonic_interleave by done. split; [done|].
    constructor; [done|]. apply Forall_forall. intros tok Hin.
    apply list_elem_of_fmap in Hin as ([sep tok'] & -> & Hin).
    rewrite Forall_forall in Hr. by destruct (Hr _ Hin) as (_ & _ & ?).
Qed.

(** X2: joining the tokens of any phrase and splitting again gives the same
    tokens: [joinMnemonic] after [splitMnemonic] is a normal form of the
    phrase for the tokenizer, in every language. *)
Theorem splitMnemonic_join_split m language :
  splitMnemonic (joinMnemonic (splitMnemonic m) language) = splitMnemonic m.
Proof.
  destruct (splitMnemonic_tokens m) as [->|[Hne Htokens]].
  - reflexivity.
  - by apply split_join_tokens.
Qed.

End SplitJoin.

(** ** Accent restoration and normalisation, continued *)

Section Normalizer2.
Context `{Imports}.

Lemma accentMapWinner_Some stripped wordList w :
  accentMapWinner stripped wordList = Some w ->
  w ∈ wordList /\ normalizeAccents w = stripped.
Proof.
  unfold accentMapWinner. intros Hlast. apply last_Some_elem_of in Hlast.
  apply list_elem_of_filter in Hlast. tauto.
Qed.

(** What [formatNonAccentedCharacters] does to one word. *)
Let formatWord (language : MnemonicLanguages) (w : JsString) : JsString :=
  if isLatinBasedLanguage language
  then default w (accentMapWinner (normalizeAccents w) (getWordList (Some language)))
  else w.

Lemma formatNonAccentedCharacters_map words language :
  formatNonAccentedCharacters words language = List.map (formatWord language) words.
Proof.
  unfold formatNonAccentedCharacters, formatWord.
  destruct (isLatinBasedLanguage language); [|by rewrite map_id].
  apply map_ext. intros w. by rewrite accentMap_get.
Qed.

(** X3: [formatNonAccentedCharacters] keeps the number of words and the
    stripped form of every word: each word is either left as it is or
    replaced by a word of the language's list with the same accent-stripped
    form; a word whose stripped form matches no list word is never changed,
    and for a language that is not Latin-based nothing is. *)
Theorem formatNonAccentedCharacters_conservative words language :
  Forall2
    (fun w out =>
       (out = w
        \/ (out ∈ getWordList (Some language)
            /\ normalizeAccents out = normalizeAccents w))
       /\ ((forall w', w' ∈ getWordList (Some language) ->
                       normalizeAccents w' <> normalizeAccents w) -> out = w))
    words (formatNonAccentedCharacters words language)
  /\ (isLatinBasedLanguage language = false ->
      formatNonAccentedCharacters words language = words).
Proof.
  rewrite formatNonAccentedCharacters_map. split.
  - apply Forall2_fmap_r, Forall_Forall2_diag, Forall_forall. intros w _.
    unfold formatWord, compose.
    destruct (isLatinBasedLanguage language); [|by split; [left|]].
    destruct (accentMapWinner (normalizeAccents w) (getWordList (Some language)))
      as [w'|] eqn:Hwin; simpl; [|by split; [left|]].
    apply accentMapWinner_Some in Hwin as [Hin Hstrip]. split; [by right|].
    intros Hnone. by destruct (Hnone w' Hin).
  - intros Hlatin. unfold formatWord. rewrite Hlatin. apply map_id.
Qed.

Section Idempotence.
Context (language : MnemonicLanguages).
Hypothesis lower_idempotent : forall s, toLowerCase (toLowerCase s) = toLowerCase s.
Hypothesis lower_token : forall s, token s -> token (toLowerCase s).
Hypothesis lower_empty : toLowerCase [] = [].
Hypothesis words_canonical :
  forall w, w ∈ getWordList (Some language) -> token w /\ toLowerCase w = w.

Let normalizeWord (w : JsString) : JsString := formatWord language (toLowerCase w).

Lemma normalizeMnemonic_words m :
  normalizeMnemonic m (Some language)
  = joinMnemonic (List.map normalizeWord (splitMnemonic m)) (Some language).
Proof.
  unfold normalizeMnemonic. rewrite formatNonAccentedCharacters_map.
  by rewrite map_map.
Qed.

Lemma normalizeWord_cases w :
  (normalizeWord w = toLowerCase w
   /\ formatWord language (toLowerCase w) = toLowerCase w)
  \/ (normalizeWord w ∈ getWordList (Some language)
      /\ formatWord language (normalizeWord w) = normalizeWord w).
Proof.
  unfold normalizeWord, formatWord.
  destruct (isLatinBasedLanguage language); [|by left].
  destruct (accentMapWinner (normalizeAccents (toLowerCase w)) _) as [w'|] eqn:Hwin;
    simpl; [|by left].
  right. destruct (accentMapWinner_Some _ _ _ Hwin) as [Hin Hstrip].
  split; [done|]. by rewrite Hstrip, Hwin.
Qed.

Lemma normalizeWord_idempotent w : normalizeWord (normalizeWord w) = normalizeWord w.
Proof.
  destruct (normalizeWord_cases w) as [[Heq Hfix]|[Hin Hfix]].
  - rewrite Heq. unfold normalizeWord at 1. by rewrite lower_idempotent.
  - unfold normalizeWord at 1.
    destruct (words_canonical _ Hin) as [_ ->]. done.
Qed.

Lemma normalizeWord_token w : token w -> token (normalizeWord w).
Proof.
  intros Hw. destruct (normalizeWord_cases w) as [[-> _]|[Hin _]].
  - by apply lower_token.
  - by apply words_canonical.
Qed.

Lemma normalizeMnemonic_twice m :
  normalizeMnemonic (normalizeMnemonic m (Some language)) (Some language)
  = normalizeMnemonic m (Some language).
Proof.
  rewrite !normalizeMnemonic_words.
  destruct (splitMnemonic_tokens m) as [->|[Hne Htokens]].
  - assert (forall x, joinMnemonic [x] (Some language) = x) as Hone by done.
    simpl. rewrite !Hone. destruct (normalizeWord_cases []) as [[Heq _]|[Hin _]].
    + rewrite Heq, lower_empty. change (splitMnemonic []) with [[] : JsString].
      simpl. by rewrite Hone, Heq, lower_empty.
    + rewrite splitMnemonic_token by by apply words_canonical.
      simpl. by rewrite Hone, normalizeWord_idempotent.
  - rewrite split_join_tokens.
    + rewrite map_map. f_equal. apply map_ext. intros w. apply normalizeWord_idempotent.
    + by destruct (splitMnemonic m).
    + apply Forall_fmap. eapply Forall_impl; [exact Htokens|].
      intros w. apply normalizeWord_token.
Qed.

Lemma normalizeMnemonic_resplit m :
  splitMnemonic m <> [[]] ->
  splitMnemonic (normalizeMnemonic m (Some language))
  = formatNonAccentedCharacters (List.map toLowerCase (splitMnemonic m)) language.
Proof.
  intros Hm. rewrite normalizeMnemonic_words, formatNonAccentedCharacters_map, map_map.
  destruct (splitMnemonic_tokens m) as [?|[Hne Htokens]]; [done|].
  rewrite split_join_tokens; [done|by destruct (splitMnemonic m)|].
  apply Forall_fmap. eapply Forall_impl; [exact Htokens|].
  intros w. apply normalizeWord_token.
Qed.

End Idempotence.

(** X4: with the language given, normalising twice is normalising once,
    for every phrase, as long as lower-casing is idempotent, maps tokens to
    tokens and the empty string to itself, and the words of the language's
    list are lower-case tokens.  For a phrase with at least one word, the
    tokens of the normalised text are the lower-cased, re-accented tokens of
    the phrase: as many as before, one joiner between two. *)
Theorem normalizeMnemonic_idempotent (language : MnemonicLanguages) :
  (forall s, toLowerCase (toLowerCase s) = toLowerCase s) ->
  (forall s, token s -> token (toLowerCase s)) ->
  toLowerCase [] = [] ->
  (forall w, w ∈ getWordList (Some language) -> token w /\ toLowerCase w = w) ->
  forall m,
    normalizeMnemonic (normalizeMnemonic m (Some language)) (Some language)
    = normalizeMnemonic m (Some language)
    /\ (splitMnemonic m <> [[]] ->
        splitMnemonic (normalizeMnemonic m (Some language))
        = formatNonAccentedCharacters (List.map toLowerCase (splitMnemonic m)) language).
Proof.
  intros Hidem Htoken Hempty Hwords m. split.
  - by apply normalizeMnemonic_twice.
  - by apply normalizeMnemonic_resplit.
Qed.

End Normalizer2.

(** ** Language detection, continued *)

Section Detector2.
Context `{Imports}.

Lemma getAllLanguages_NoDup : NoDup getAllLanguages.
Proof. unfold getAllLanguages. repeat (constructor; [set_solver|]). constructor. Qed.

(** Detection depends on the tokens through the scores of the candidates
    only. *)
Lemma detectLanguage_scores words words' candidates :
  (forall c, c ∈ default getAllLanguages candidates ->
             languageScore words c = languageScore words' c) ->
  detectLanguage words candidates = detectLanguage words' candidates.
Proof.
  intros Hscores. unfold detectLanguage.
  assert (List.map (fun candidate => (candidate, languageScore words candidate))
            (default getAllLanguages candidates)
          = List.map (fun candidate => (candidate, languageScore words' candidate))
              (default getAllLanguages candidates)) as ->; [|done].
  apply map_ext_in. intros c Hc. rewrite Hscores; [done|by apply list_elem_of_In].
Qed.

Lemma filter_unique {A} (P : A -> Prop) `{forall x, Decision (P x)} (l : list A) (x : A) :
  NoDup l -> x ∈ l -> (forall y, y ∈ l -> P y <-> y = x) -> filter P l = [x].
Proof.
  induction l as [|y l IH]; intros Hnd Hx HP; [by apply elem_of_nil in Hx|].
  apply NoDup_cons in Hnd as [Hy Hnd].
  destruct (decide (P y)) as [HPy|HnPy].
  - assert (y = x) as -> by (apply HP; [left|done]).
    rewrite filter_cons_True by done. f_equal.
    apply filter_none, Forall_forall. intros z Hz HPz.
    apply HP in HPz; [|by right]. by subst.
  - rewrite filter_cons_False by done.
    assert (y <> x) as Hne by (intros ->; apply HnPy, HP; [left|done]).
    apply IH; [done| |].
    + apply elem_of_cons in Hx as [?|?]; [by subst|done].
    + intros z Hz. apply HP. by right.
Qed.

Lemma max_list_attained (f : MnemonicLanguages -> nat) cs c :
  c ∈ cs -> (forall c', c' ∈ cs -> f c' <= f c) -> max_list (List.map f cs) = f c.
Proof.
  intros Hc Hle. apply Nat.le_antisymm.
  - assert (List.map f cs <> []) as Hne by (destruct cs; [by apply elem_of_nil in Hc|done]).
    apply max_list_elem_of, list_elem_of_fmap in Hne as (c' & -> & Hc'). by apply Hle.
  - apply max_list_elem_of_le, list_elem_of_fmap. by exists c.
Qed.

Lemma detectLanguage_winner words candidates L :
  NoDup (default getAllLanguages candidates) ->
  detectLanguage words candidates = Some L <->
  L ∈ default getAllLanguages candidates
  /\ 1 <= languageScore words L
  /\ forall c, c ∈ default getAllLanguages candidates -> c <> L ->
               languageScore words c < languageScore words L.
Proof.
  intros Hnd. rewrite detectLanguage_winners. cbv zeta.
  set (cs := default getAllLanguages candidates) in *.
  set (best := max_list (List.map (languageScore words) cs)).
  destruct (unique_winner (filter (fun c => languageScore words c = best) cs) best)
    as [Hsome _].
  rewrite Hsome. clear Hsome. split.
  - intros [Hwinners Hbest].
    assert (L ∈ filter (fun c => languageScore words c = best) cs) as HL
        by (rewrite Hwinners; left).
    apply list_elem_of_filter in HL as [HLbest HL].
    split; [done|]. split; [lia|]. intros c Hc Hne.
    assert (languageScore words c <= best) as Hle.
    { apply max_list_elem_of_le, list_elem_of_fmap. by exists c. }
    destruct (decide (languageScore words c = best)) as [Heq|?]; [|lia].
    assert (c ∈ filter (fun c => languageScore words c = best) cs) as Hin
        by by apply list_elem_of_filter.
    rewrite Hwinners in Hin. by apply list_elem_of_singleton in Hin.
  - intros (HL & Hscore & Hothers).
    assert (best = languageScore words L) as Hbest.
    { apply max_list_attained; [done|]. intros c Hc.
      destruct (decide (c = L)) as [->|Hne]; [done|]. specialize (Hothers c Hc Hne). lia. }
    split; [|lia]. apply filter_unique; [done..|].
    intros c Hc. split; [|by intros ->].
    intros Heq. destruct (decide (c = L)) as [|Hne]; [done|].
    specialize (Hothers c Hc Hne). lia.
Qed.

(** X5: over candidates listed once each, as the default nine are,
    [detectLanguage] returns a language exactly when that language is a
    candidate, matches at least one token and matches strictly more tokens
    than every other candidate. *)
Theorem detectLanguage_strict_winner words candidates L :
  NoDup (default getAllLanguages candidates) ->
  (detectLanguage words candidates = Some L <->
   L ∈ default getAllLanguages candidates
   /\ 1 <= length (filter (fun w => w ∈ getWordList (Some L)) words)
   /\ forall c, c ∈ default getAllLanguages candidates -> c <> L ->
                length (filter (fun w => w ∈ getWordList (Some c)) words)
                < length (filter (fun w => w ∈ getWordList (Some L)) words))
  /\ NoDup (default getAllLanguages None).
Proof.
  intros Hnd. split; [|apply getAllLanguages_NoDup].
  rewrite detectLanguage_winner by done. rewrite languageScore_count.
  split; intros (HL & Hscore & Hothers); (split; [done|]; split; [done|]);
    intros c Hc Hne; specialize (Hothers c Hc Hne);
    by rewrite ?languageScore_count in *.
Qed.

Lemma filter_nothing {A} (P : A -> Prop) `{forall x, Decision (P x)} (l : list A) :
  filter P l = [] <-> Forall (fun x => ~ P x) l.
Proof.
  split; [|apply filter_none].
  induction l as [|y l IH]; [constructor|]. rewrite filter_cons.
  case_decide; [done|]. intros Hl. constructor; [done|by apply IH].
Qed.

(** A filter keeps [x] alone exactly when [x] occurs once and nothing else
    passes. *)
Lemma filter_single {A} `{EqDecision A} (P : A -> Prop) `{forall x, Decision (P x)}
    (l : list A) (x : A) :
  P x ->
  filter P l = [x] <->
  filter (fun y => y = x) l = [x] /\ forall y, y ∈ l -> y <> x -> ~ P y.
Proof.
  intros Hx. induction l as [|y l IH].
  - split; [done|]. by intros [? _].
  - destruct (decide (y = x)) as [->|Hne].
    + rewrite !filter_cons_True by done. split.
      * intros [= Hl]. apply filter_nothing in Hl. rewrite Forall_forall in Hl. split.
        -- f_equal. apply filter_nothing, Forall_forall. intros z Hz ->. by apply (Hl x).
        -- intros z Hz Hzx. apply elem_of_cons in Hz as [?|Hz]; [done|]. by apply Hl.
      * intros [[= Hl] Hothers]. f_equal. apply filter_nothing, Forall_forall.
        intros z Hz HPz. apply filter_nothing in Hl. rewrite Forall_forall in Hl.
        destruct (decide (z = x)) as [->|Hzx]; [by apply (Hl x)|].
        apply (Hothers z); [by right|done|done].
    + rewrite (filter_cons_False (fun y => y = x)) by done.
      destruct (decide (P y)) as [HPy|HnPy].
      * rewrite filter_cons_True by done. split.
        -- intros [= ? _]. done.
        -- intros [_ Hothers]. destruct (Hothers y); [left|done|done].
      * rewrite filter_cons_False by done. rewrite IH. split.
        -- intros [Hl Hothers]. split; [done|]. intros z Hz Hzx.
           apply elem_of_cons in Hz as [->|Hz]; [done|by apply Hothers].
        -- intros [Hl Hothers]. split; [done|]. intros z Hz. apply Hothers. by right.
Qed.

(** X6: a phrase whose tokens are all words of a candidate language is
    detected as that language exactly when the language is listed once among
    the candidates and every other candidate misses at least one of the
    tokens; another candidate whose list holds all the tokens makes
    detection return none.  The candidates may be any list. *)
Theorem detectLanguage_monolingual words candidates L :
  L ∈ default getAllLanguages candidates ->
  words <> [] ->
  Forall (fun w => w ∈ getWordList (Some L)) words ->
  (detectLanguage words candidates = Some L <->
   filter (fun c => c = L) (default getAllLanguages candidates) = [L]
   /\ forall c, c ∈ default getAllLanguages candidates -> c <> L ->
                exists w, w ∈ words /\ w ∉ getWordList (Some c))
  /\ (forall c, c ∈ default getAllLanguages candidates -> c <> L ->
                Forall (fun w => w ∈ getWordList (Some c)) words ->
                detectLanguage words candidates = None).
Proof.
  intros HL Hwords Hall.
  set (cs := default getAllLanguages candidates) in *.
  assert (forall c, languageScore words c <= length words) as Hbound.
  { intros c. rewrite languageScore_count. apply length_filter. }
  assert (forall c, Forall (fun w => w ∈ getWordList (Some c)) words ->
                    languageScore words c = length words) as Hfull.
  { intros c Hc. rewrite languageScore_count. by rewrite filter_all. }
  assert (forall c, languageScore words c <> length words <->
                    exists w, w ∈ words /\ w ∉ getWordList (Some c)) as Hmiss.
  { intros c. split.
    - intros Hlt. destruct (decide (Forall (fun w => w ∈ getWordList (Some c)) words))
        as [Hfa|Hnfa]; [by destruct (Hlt (Hfull c Hfa))|].
      apply not_Forall_Exists in Hnfa; [|apply _].
      apply Exists_exists in Hnfa as (w & Hw & Hnot). by exists w.
    - intros (w & Hw & Hnot). rewrite languageScore_count.
      pose proof (length_filter_lt (fun w => w ∈ getWordList (Some c)) words w Hw Hnot).
      lia. }
  assert (max_list (List.map (languageScore words) cs) = length words) as Hbest.
  { rewrite <- (Hfull L Hall). apply max_list_attained; [done|].
    intros c _. rewrite (Hfull L Hall). apply Hbound. }
  assert (forall l, detectLanguage words candidates = Some l <->
                    filter (fun c => languageScore words c = length words) cs = [l])
    as Hdetect.
  { intros l. rewrite detectLanguage_winners. cbv zeta. fold cs. rewrite Hbest.
    destruct (unique_winner
                (filter (fun c => languageScore words c = length words) cs)
                (length words)) as [Hsome _].
    rewrite Hsome. split; [by intros [? _]|]. intros Hl. split; [done|].
    destruct words; [done|simpl; lia]. }
  split.
  - rewrite Hdetect, (filter_single _ cs L (Hfull L Hall)).
    split; intros [Honce Hothers]; (split; [done|]); intros c Hc Hne;
      apply Hmiss; by apply Hothers.
  - intros c Hc Hne Hcall.
    destruct (detectLanguage words candidates) as [l|]; [|done].
    exfalso. pose proof (proj1 (Hdetect l) eq_refl) as Hl.
    assert (L ∈ filter (fun c => languageScore words c = length words) cs) as HLin
        by (apply list_elem_of_filter; split; [by apply Hfull|done]).
    assert (c ∈ filter (fun c => languageScore words c = length words) cs) as Hcin
        by (apply list_elem_of_filter; split; [by apply Hfull|done]).
    rewrite Hl in HLin, Hcin.
    apply list_elem_of_singleton in HLin, Hcin. congruence.
Qed.

(** X7: detection does not depend on the order of the tokens. *)
Theorem detectLanguage_token_order words words' candidates :
  words ≡ₚ words' ->
  detectLanguage words candidates = detectLanguage words' candidates.
Proof.
  intros Hperm. apply detectLanguage_scores. intros c _.
  rewrite !languageScore_count. by rewrite Hperm.
Qed.

(** X8: tokens that are words of no candidate list, misspelt words for
    instance, do not change the language detected. *)
Theorem detectLanguage_unknown_tokens words unknown candidates :
  Forall (fun w => forall c, c ∈ default getAllLanguages candidates ->
                             w ∉ getWordList (Some c)) unknown ->
  detectLanguage (words ++ unknown) candidates = detectLanguage words candidates.
Proof.
  intros Hunknown. apply detectLanguage_scores. intros c Hc.
  rewrite !languageScore_count, filter_app, length_app.
  rewrite (filter_none _ unknown); [simpl; lia|].
  eapply Forall_impl; [exact Hunknown|]. simpl. auto.
Qed.

(** X9: over candidates listed once each, detection does not depend on the
    order in which the candidates are given. *)
Theorem detectLanguage_candidate_order words cs cs' :
  NoDup cs -> cs ≡ₚ cs' ->
  detectLanguage words (Some cs) = detectLanguage words (Some cs').
Proof.
  intros Hnd Hperm.
  assert (NoDup cs') as Hnd' by by rewrite <- Hperm.
  assert (forall L, detectLanguage words (Some cs) = Some L <->
                    detectLanguage words (Some cs') = Some L) as Hiff.
  { intros L. rewrite !detectLanguage_winner by done. simpl.
    split; intros (HL & Hscore & Hothers).
    - split; [by rewrite <- Hperm|]. split; [done|].
      intros c Hc. apply Hothers. by rewrite Hperm.
    - split; [by rewrite Hperm|]. split; [done|].
      intros c Hc. apply Hothers. by rewrite <- Hperm. }
  destruct (detectLanguage words (Some cs)) as [L|];
    destruct (detectLanguage words (Some cs')) as [L'|]; [| | |done].
  - symmetry. by apply Hiff.
  - by pose proof (proj1 (Hiff L) eq_refl).
  - by pose proof (proj2 (Hiff L') eq_refl).
Qed.

(** X10: a mnemonic accepted with a language given is accepted without one;
    a mnemonic rejected without a language is rejected with every language. *)
Theorem validateMnemonic_language_implies_any mnemonic bip39ToUse :
  (forall language,
      validateMnemonic mnemonic bip39ToUse (Some language) = true ->
      validateMnemonic mnemonic bip39ToUse None = true)
  /\ (validateMnemonic mnemonic bip39ToUse None = false ->
      forall language, validateMnemonic mnemonic bip39ToUse (Some language) = false).
Proof.
  assert (forall language,
             validateMnemonic mnemonic bip39ToUse (Some language) = true ->
             validateMnemonic mnemonic bip39ToUse None = true) as Himp.
  { intros language Hacc. unfold validateMnemonic in *.
    apply validateMnemonic_any_true. exists language.
    split; [apply getAllLanguages_complete|done]. }
  split; [exact Himp|]. intros Hnone language.
  destruct (validateMnemonic mnemonic bip39ToUse (Some language)) eqn:Hl; [|done].
  apply Himp in Hl. congruence.
Qed.

End Detector2.

(** ** The combinatorial enumeration, continued *)

Section Engine2.

Implicit Types (spots rest : SpotSuggestions) (suggestions : SuggestionsByDistance).

Lemma skipBelow_run minWeight suggestions :
  exists skipped,
    suggestions = skipped ++ skipBelow minWeight suggestions
    /\ Forall (fun s => Weight.reached (distance s) minWeight = false) skipped
    /\ (forall s, head (skipBelow minWeight suggestions) = Some s ->
                  Weight.reached (distance s) minWeight = true).
Proof.
  induction suggestions as [|s suggestions (skipped & Heq & Hskipped & Hhead)]; simpl.
  - exists []. by repeat split.
  - destruct (Weight.reached (distance s) minWeight) eqn:Hs.
    + exists []. repeat split; [done|]. by intros ? [= <-].
    + exists (s :: skipped). split; [by rewrite Heq at 1|]. split; [by constructor|done].
Qed.

Lemma yieldBelow_run maxWeight suggestions :
  exists remainder,
    suggestions = yieldBelow maxWeight suggestions ++ remainder
    /\ Forall (fun s => Weight.reached (distance s) maxWeight = false)
         (yieldBelow maxWeight suggestions)
    /\ (forall s, head remainder = Some s -> Weight.reached (distance s) maxWeight = true).
Proof.
  induction suggestions as [|s suggestions (remainder & Heq & Hbelow & Hhead)]; simpl.
  - exists []. by repeat split.
  - destruct (Weight.reached (distance s) maxWeight) eqn:Hs.
    + exists (s :: suggestions). repeat split; [done|]. by intros ? [= <-].
    + exists remainder. split; [simpl; by rewrite Heq at 1|]. split; [by constructor|done].
Qed.

(** X11: on any list, ranked or not, [suggestionsInRange] yields one
    contiguous run of it: what comes before the run is below [minWeight],
    the run starts at the first suggestion that reaches [minWeight] and
    holds only suggestions below [maxWeight], and it stops in front of the
    first suggestion from there on that reaches [maxWeight]. *)
Theorem suggestionsInRange_run suggestions minWeight maxWeight :
  exists skipped remainder,
    suggestions = skipped ++ suggestionsInRange suggestions minWeight maxWeight ++ remainder
    /\ Forall (fun s => Weight.reached (distance s) minWeight = false) skipped
    /\ Forall (fun s => Weight.reached (distance s) maxWeight = false)
         (suggestionsInRange suggestions minWeight maxWeight)
    /\ (forall s,
          head (suggestionsInRange suggestions minWeight maxWeight ++ remainder) = Some s ->
          Weight.reached (distance s) minWeight = true)
    /\ (forall s, head remainder = Some s -> Weight.reached (distance s) maxWeight = true).
Proof.
  unfold suggestionsInRange.
  destruct (skipBelow_run minWeight suggestions) as (skipped & Heq & Hskipped & Hmin).
  destruct (yieldBelow_run maxWeight (skipBelow minWeight suggestions))
    as (remainder & Heq' & Hbelow & Hmax).
  exists skipped, remainder. rewrite <- Heq'. by repeat split.
Qed.

Lemma combineSuggestions_rec_negative depth spots minWeight maxWeight :
  Weight.negative maxWeight = true ->
  combineSuggestions_rec depth spots minWeight maxWeight = Gen.throw.
Proof.
  intros Hmax. rewrite combineSuggestions_rec_unfold.
  destruct spots as [|[index suggestions] spots]; [done|].
  by rewrite Hmax, orb_true_r.
Qed.

Lemma combineLoop_descent recurse index maxWeight before s next after :
  (forall W, Weight.negative W = true -> recurse W = Gen.throw) ->
  (distance next < distance s)%Z ->
  threw (combineLoop recurse index maxWeight (before ++ s :: next :: after)) = true.
Proof.
  intros Hrecurse Hdescent. induction before as [|b before IH]; simpl.
  - rewrite Hrecurse; [done|]. simpl. apply Z.ltb_lt. lia.
  - unfold Gen.seq at 1.
    destruct (threw (Gen.for_of _ _)) eqn:Hthrew; [done|]. simpl. exact IH.
Qed.

(** X12: the enumeration relies on the ranking.  Over a map of at least two
    positions, if two neighbours among the suggestions iterated at the head
    position come in descending distance, the window of the first is
    negative and the run ends with the thrown programming error. *)
Theorem combineSuggestions_unsorted_throws index suggestions rest
    minWeight maxWeight before s next after :
  rest <> [] ->
  Weight.negative minWeight = false -> Weight.negative maxWeight = false ->
  suggestionsInRange suggestions minWeight maxWeight = before ++ s :: next :: after ->
  (distance next < distance s)%Z ->
  threw (combineSuggestions ((index, suggestions) :: rest) minWeight maxWeight) = true.
Proof.
  intros Hrest Hmin Hmax Hrange Hdescent. unfold combineSuggestions.
  destruct rest as [|entry rest]; [done|].
  change (length ((index, suggestions) :: entry :: rest)) with (S (S (length rest))).
  rewrite combineSuggestions_rec_unfold, Hmin, Hmax.
  cbv zeta. cbn [orb length Nat.eqb]. rewrite Hrange.
  apply combineLoop_descent; [|done].
  intros W HW. by apply combineSuggestions_rec_negative.
Qed.

Lemma chosen_covers spots a total :
  chosen spots a total ->
  Forall2 (fun entry pick => pick.1 = entry.1 /\ exists s, s ∈ entry.2 /\ pick.2 = word s)
          spots a.
Proof.
  induction 1 as [|index suggestions s rest a total Hs _ IH]; constructor; [|done].
  simpl. split; [done|]. by exists s.
Qed.

(** X13: on a map with distinct positions and ranked lists, called with
    weights that are not negative, the enumeration does not throw, and every
    assignment it yields has one entry per position of the map, in the order
    of the map, whose word is one of the words suggested for that position. *)
Theorem combineSuggestions_covers spots minWeight maxWeight :
  spots <> [] -> wellFormed spots ->
  Weight.negative minWeight = false -> Weight.negative maxWeight = false ->
  threw (combineSuggestions spots minWeight maxWeight) = false
  /\ forall a, a ∈ yields (combineSuggestions spots minWeight maxWeight) ->
       List.map fst a = List.map fst spots
       /\ Forall2 (fun entry pick => exists s, s ∈ entry.2 /\ pick = (entry.1, word s))
                  spots a.
Proof.
  intros Hne Hwf Hmin Hmax.
  destruct (combineSuggestions_sound spots Hne Hwf minWeight maxWeight Hmin Hmax)
    as [Hthrew Hsound].
  split; [done|]. intros a Ha.
  destruct (Hsound a Ha) as (total & Hchosen & _).
  apply chosen_covers in Hchosen. clear -Hchosen.
  induction Hchosen as [|entry [k w] spots a [Hk (s & Hs & Hw)] _ [IH1 IH2]]; [done|].
  simpl in *. subst. split; [by f_equal|]. constructor; [|done]. by exists s.
Qed.

Lemma zero_window rest :
  rest <> [] -> wellFormed rest ->
  combineSuggestions rest (Finite 0) (Finite 0) = mkGen [] false.
Proof.
  intros Hne Hwf.
  destruct (combineSuggestions_sound rest Hne Hwf (Finite 0) (Finite 0) eq_refl eq_refl)
    as [Hthrew Hsound].
  destruct (combineSuggestions rest (Finite 0) (Finite 0)) as [ys t]. simpl in *.
  subst t. f_equal. destruct ys as [|a ys]; [done|].
  destruct (Hsound a) as (total & _ & Hpos & Hlt); [left|]. simpl in Hlt. lia.
Qed.

Lemma seq_nothing {A B} (body : A -> Gen B) (g : Gen B) :
  Gen.seq (Gen.for_of (mkGen [] false) body) g = g.
Proof. by destruct g. Qed.

Lemma combineLoop_tie recurse index maxWeight before s next after :
  recurse (Finite 0) = mkGen [] false ->
  distance s = distance next ->
  combineLoop recurse index maxWeight (before ++ s :: next :: after)
  = combineLoop recurse index maxWeight (before ++ next :: after).
Proof.
  intros Hzero Htie. induction before as [|b before IH].
  - simpl app. cbn [combineLoop head]. rewrite Htie.
    change (Weight.sub (Finite (distance next)) (distance next))
      with (Finite (distance next - distance next)).
    rewrite Z.sub_diag, Hzero. by apply seq_nothing.
  - rewrite <- !app_comm_cons. cbn [combineLoop]. rewrite IH. f_equal.
    destruct before; simpl; [by rewrite Htie|done].
Qed.

(** X14: a suggestion directly followed, in the ranking of the head
    position, by a suggestion of the same distance is never used: the nested
    enumeration gets a window of width zero for it, so the run is the one of
    the map without that suggestion. *)
Theorem combineSuggestions_tie_dead index before s next after rest :
  wellFormed ((index, before ++ s :: next :: after) :: rest) ->
  rest <> [] ->
  distance s = distance next ->
  combineSuggestions ((index, before ++ s :: next :: after) :: rest) (Finite 0) Infinity
  = combineSuggestions ((index, before ++ next :: after) :: rest) (Finite 0) Infinity.
Proof.
  intros [Hnd Hranked] Hrest Htie.
  apply Forall_cons in Hranked as [[Hpos _] Hranked]. simpl in Hpos.
  assert (wellFormed rest) as Hwf.
  { split; [|done]. simpl in Hnd. by apply NoDup_cons in Hnd as [_ ?]. }
  rewrite !combineSuggestions_cons by done.
  rewrite !suggestionsInRange_default.
  - apply combineLoop_tie; [|done]. by apply zero_window.
  - apply Forall_app in Hpos as [Hbefore Hpos].
    apply Forall_cons in Hpos as [_ Hpos]. by apply Forall_app.
  - done.
Qed.

(** X15: for a map of two positions the run has a closed form: the pairs of
    a suggestion s of the first position and a suggestion t of the second
    with the distance of t below the distance of the suggestion after s less
    the distance of s (any t when s is the last), by s in ranking order
    and then by t in ranking order. *)
Theorem combineSuggestions_two_positions i0 ranking0 i1 ranking1 :
  wellFormed [(i0, ranking0); (i1, ranking1)] ->
  combineSuggestions [(i0, ranking0); (i1, ranking1)] (Finite 0) Infinity
  = mkGen
      (concat
         (imap (fun k s =>
                  List.map (fun t => [(i0, word s); (i1, word t)])
                    (filter (inWindow (Finite 0) (siblingWindow ranking0 Infinity k s))
                            ranking1))
               ranking0))
      false.
Proof.
  intros [Hnd Hranked].
  apply Forall_cons in Hranked as [[Hpos0 Hsorted0] Hranked]. simpl in Hpos0, Hsorted0.
  pose proof Hranked as Hranked1.
  apply Forall_cons in Hranked1 as [[Hpos1 Hsorted1] _]. simpl in Hpos1, Hsorted1.
  assert (wellFormed [(i1, ranking1)]) as Hwf.
  { split; [|done]. simpl in Hnd. by apply NoDup_cons in Hnd as [_ ?]. }
  rewrite combineSuggestions_cons by done.
  rewrite suggestionsInRange_default by done.
  assert (Forall (fun s => Weight.reached (distance s) Infinity = false) ranking0) as Hinf
      by by apply Forall_forall.
  rewrite combineLoop_windows; [|intros W HW; by apply combineSuggestions_sound|done|done].
  do 2 f_equal. apply imap_ext. intros k s Hk. simpl.
  rewrite combineSuggestions_single; [|done|by apply window_not_negative].
  simpl. rewrite suggestionsInRange_ranked by done. by rewrite map_map.
Qed.

End Engine2.

(** ** The correction orchestrator, continued *)

Section Orchestrator2.
Context `{Imports}.

Lemma newMap_from_fresh {V} (entries : list (nat * V)) (m : gmap nat V) (k : nat) :
  k ∉ List.map fst entries ->
  foldl (fun m kv => <[kv.1 := kv.2]> m) m entries !! k = m !! k.
Proof.
  revert m. induction entries as [|[k' v'] entries IH]; intros m Hk; [done|].
  simpl in *. apply not_elem_of_cons in Hk as [Hne Hk].
  rewrite IH by done. by rewrite lookup_insert_ne.
Qed.

(** [new Map(entries).get(k)] over entries with distinct keys. *)
Lemma newMap_lookup {V} (entries : list (nat * V)) (k : nat) (v : V) :
  NoDup (List.map fst entries) -> (k, v) ∈ entries ->
  Js.newMap entries !! k = Some v.
Proof.
  unfold Js.newMap. generalize (∅ : gmap nat V).
  induction entries as [|[k' v'] entries IH]; intros m Hnd Hin;
    [by apply elem_of_nil in Hin|].
  simpl in *. apply NoDup_cons in Hnd as [Hfresh Hnd].
  apply elem_of_cons in Hin as [[= -> ->]|Hin].
  - rewrite newMap_from_fresh by done. apply lookup_insert_eq.
  - by apply IH.
Qed.

(** An assignment that covers the positions [0 .. n-1] of a phrase of [n]
    words replaces every word of it. *)
Lemma substituted_all (words : list JsString) (a : list (nat * JsString)) :
  List.map fst a = seq 0 (length words) ->
  imap (fun i word => default word (Js.newMap a !! i)) words = List.map snd a.
Proof.
  intros Hkeys.
  assert (length a = length words) as Hlen.
  { rewrite <- (length_map fst a), Hkeys. apply length_seq. }
  assert (NoDup (List.map fst a)) as Hnd by (rewrite Hkeys; apply NoDup_seq).
  apply list_eq. intros i. rewrite list_lookup_imap, list_lookup_fmap.
  destruct (words !! i) as [w|] eqn:Hw.
  - assert (i < length a) as Hi by (rewrite Hlen; by eapply lookup_lt_Some).
    destruct (lookup_lt_is_Some_2 a i Hi) as [[k v] Hkv]. rewrite Hkv. simpl.
    assert (k = i) as ->.
    { assert (List.map fst a !! i = Some k) as Hk
          by (by rewrite list_lookup_fmap, Hkv).
      rewrite Hkeys in Hk. apply lookup_seq in Hk as [Hk _]. simpl in Hk. lia. }
    rewrite (newMap_lookup a i v); [done|done|]. apply list_elem_of_lookup. eauto.
  - apply lookup_ge_None in Hw. rewrite lookup_ge_None_2; [done|lia].
Qed.

Lemma picks_keys (spots : SpotSuggestions) (a : list (nat * JsString)) :
  Forall2 (fun entry pick => pick.1 = entry.1 /\ exists s, s ∈ entry.2 /\ pick.2 = word s)
          spots a ->
  List.map fst a = List.map fst spots.
Proof. induction 1 as [|entry pick spots a [Hk _] _ IH]; [done|]. simpl. by f_equal. Qed.

Lemma picks_words (P : JsString -> Prop) (spots : SpotSuggestions)
    (a : list (nat * JsString)) :
  Forall (fun entry => Forall (fun s => P (word s)) entry.2) spots ->
  Forall2 (fun entry pick => pick.1 = entry.1 /\ exists s, s ∈ entry.2 /\ pick.2 = word s)
          spots a ->
  Forall P (List.map snd a).
Proof.
  intros Hspots Hpicks.
  induction Hpicks as [|entry pick spots a [_ (s & Hs & Hw)] _ IH]; [constructor|].
  apply Forall_cons in Hspots as [Hentry Hspots]. simpl. constructor; [|by apply IH].
  rewrite Hw. rewrite Forall_forall in Hentry. by apply Hentry.
Qed.

Lemma wordSuggestions_words typo language :
  Forall (fun s => word s ∈ getWordList (Some language)) (wordSuggestions typo language).
Proof.
  unfold wordSuggestions. apply Forall_forall. intros s Hs.
  rewrite sort_Permutation in Hs. by apply list_elem_of_fmap in Hs as (w & -> & Hw).
Qed.

(** The candidate phrases: every word of the phrase is replaced by a word of
    the language's list. *)
Lemma unvalidated_phrases words language phrase :
  phrase ∈ yields (suggestUnvalidatedCorrections words language) ->
  exists replaced,
    phrase = joinMnemonic replaced (Some language)
    /\ length replaced = length words
    /\ Forall (fun w => w ∈ getWordList (Some language)) replaced.
Proof.
  destruct (decide (words = [])) as [->|Hwords]; [by intros ?%elem_of_nil|].
  rewrite suggestUnvalidatedCorrections_candidates by done. simpl.
  intros Hphrase. apply list_elem_of_fmap in Hphrase as (a & -> & Ha).
  pose proof (spotSuggestions_wellFormed words language) as Hwf.
  assert (imap (fun index word => (index, wordSuggestions word language)) words <> [])
    as Hne by by destruct words.
  destruct (combineSuggestions_sound _ Hne Hwf (Finite 0) Infinity eq_refl eq_refl)
    as [_ Hsound].
  destruct (Hsound a Ha) as (total & Hchosen & _).
  apply chosen_covers in Hchosen.
  assert (List.map fst a = seq 0 (length words)) as Hkeys.
  { rewrite (picks_keys _ _ Hchosen).
    apply (keys_imap (fun word => wordSuggestions word language) words 0). }
  exists (List.map snd a). split; [by rewrite substituted_all|].
  split.
  - rewrite length_map, <- (length_map fst a), Hkeys. apply length_seq.
  - eapply picks_words; [|exact Hchosen].
    apply Forall_forall. intros entry Hentry.
    apply list_elem_of_lookup in Hentry as (i & Hi).
    rewrite list_lookup_imap in Hi. destruct (words !! i); [|done].
    injection Hi as <-. apply wordSuggestions_words.
Qed.

Lemma unvalidated_no_throw words language :
  threw (suggestUnvalidatedCorrections words language) = false.
Proof.
  destruct (decide (words = [])) as [->|Hwords]; [done|].
  by rewrite suggestUnvalidatedCorrections_candidates.
Qed.

(** X16: [suggestUnvalidatedCorrections] never throws, and each candidate
    phrase it yields is the join of as many words as the phrase has, every
    one a word of the language's list: every position is replaced, also
    those whose word was already in the list. *)
Theorem suggestUnvalidatedCorrections_wordlist_phrases words language :
  threw (suggestUnvalidatedCorrections words language) = false
  /\ forall phrase,
       phrase ∈ yields (suggestUnvalidatedCorrections words language) ->
       exists replaced,
         phrase = joinMnemonic replaced (Some language)
         /\ length replaced = length words
         /\ Forall (fun w => w ∈ getWordList (Some language)) replaced.
Proof.
  split; [apply unvalidated_no_throw|].
  intros phrase Hphrase. by apply unvalidated_phrases.
Qed.

(** X17: [suggestCorrections] never throws, whatever the phrase and the
    language argument: the programming error of [combineSuggestions] cannot
    be reached from it.  When the words of the resolved language's list are
    word tokens, every suggestion it yields tokenizes to as many tokens as
    the phrase, all of them words of that list, and is accepted by the
    validator for that language. *)
Theorem suggestCorrections_safe mnemonic language :
  threw (suggestCorrections mnemonic language) = false
  /\ forall lang,
       match language with
       | Some l => Some l
       | None => detectLanguage (splitMnemonic mnemonic) None
       end = Some lang ->
       (forall w, w ∈ getWordList (Some lang) -> token w) ->
       forall phrase,
         phrase ∈ yields (suggestCorrections mnemonic language) ->
         length (splitMnemonic phrase) = length (splitMnemonic mnemonic)
         /\ Forall (fun w => w ∈ getWordList (Some lang)) (splitMnemonic phrase)
         /\ validateMnemonic phrase None (Some lang) = true.
Proof.
  unfold suggestCorrections.
  destruct (match language with
            | Some l => Some l
            | None => detectLanguage (splitMnemonic mnemonic) None
            end) as [lang|]; [|by split].
  rewrite for_of_filter. simpl. split; [apply unvalidated_no_throw|].
  intros ? [= <-] Htokens phrase Hphrase.
  apply list_elem_of_In, filter_In in Hphrase as [Hphrase Hvalid].
  apply list_elem_of_In, unvalidated_phrases in Hphrase
    as (replaced & -> & Hlen & Hwords).
  assert (replaced <> []) as Hne.
  { intros ->. pose proof (split_ws_from_nonempty false (Js.trim mnemonic)).
    unfold splitMnemonic, Js.split_ws in Hlen.
    by destruct (Js.split_ws_from false (Js.trim mnemonic)). }
  rewrite split_join_tokens; [done|done|].
  eapply Forall_impl; [exact Hwords|]. exact Htokens.
Qed.

Lemma unvalidated_single_word w language :
  suggestUnvalidatedCorrections [w] language
  = mkGen (List.map word (wordSuggestions w language)) false.
Proof.
  rewrite suggestUnvalidatedCorrections_candidates by done. simpl.
  rewrite combineSuggestions_single by done. simpl.
  rewrite suggestionsInRange_default by (exact (proj1 (wordSuggestions_is_ranked w language))).
  rewrite map_map. f_equal.
Qed.

(** X19: for a phrase of one token the candidates are the words of the
    language's list, all of them, by ascending distance to the token.  The
    empty phrase is such a phrase, its one token being empty: with a
    language given, [suggestCorrections] runs through the whole list for it
    and yields every word that the validator accepts as a phrase. *)
Theorem suggestCorrections_single_word w language :
  suggestUnvalidatedCorrections [w] language
  = mkGen (List.map word (wordSuggestions w language)) false
  /\ suggestCorrections [] (Some language)
     = mkGen
         (List.filter
            (fun phrase => bip39_validateMnemonic phrase (getWordList (Some language)))
            (List.map word (wordSuggestions [] language)))
         false.
Proof.
  split; [apply unvalidated_single_word|].
  unfold suggestCorrections. change (splitMnemonic []) with [[] : JsString].
  by rewrite unvalidated_single_word, for_of_filter.
Qed.

End Orchestrator2.

(** ** Seed truncation *)

Section Seed.

(** X18: [generateSeed] returns a prefix of the seed of the provider: the
    whole seed when [keyByteLength] (64 when left out) is not positive or
    the seed is not longer, its first [keyByteLength] bytes otherwise; the
    result never has more than a positive [keyByteLength] bytes. *)
Theorem generateSeed_prefix mnemonicToSeed mnemonic password keyByteLength :
  let seed := mnemonicToSeed mnemonic password in
  let k := default 64%Z keyByteLength in
  let result := generateSeed mnemonicToSeed mnemonic password keyByteLength in
  (exists dropped, seed = result ++ dropped)
  /\ length result = (if (0 <? k)%Z then Nat.min (length seed) (Z.to_nat k) else length seed)
  /\ ((k <= 0)%Z \/ (Z.of_nat (length seed) <= k)%Z -> result = seed)
  /\ ((0 < k)%Z -> (Z.of_nat (length result) <= k)%Z).
Proof.
  intros seed k result. unfold result, generateSeed. fold seed k.
  destruct (0 <? k)%Z eqn:Hpos; destruct (k <? Z.of_nat (length seed))%Z eqn:Hlong; simpl;
    try apply Z.ltb_lt in Hpos; try apply Z.ltb_ge in Hpos;
    try apply Z.ltb_lt in Hlong; try apply Z.ltb_ge in Hlong.
  - split; [exists (drop (Z.to_nat k) seed); by rewrite take_drop|].
    rewrite length_take. repeat split; lia.
  - split; [exists []; by rewrite app_nil_r|]. repeat split; lia.
  - split; [exists []; by rewrite app_nil_r|]. repeat split; lia.
  - split; [exists []; by rewrite app_nil_r|]. repeat split; lia.
Qed.

End Seed.

(** ** The further statements on the sample instance *)

Section Samples2.

Local Existing Instance sampleImports.

Lemma isWhiteSpace_true c :
  Js.isWhiteSpace c = true -> (c <= 13 \/ c = 32 \/ 160 <= c)%N.
Proof.
  unfold Js.isWhiteSpace.
  rewrite !orb_true_iff, !andb_true_iff, !N.leb_le, !N.eqb_eq. lia.
Qed.

Lemma sample_lower_unit c :
  let c' := if ((65 <=? c) && (c <=? 90))%N then (c + 32)%N else c in
  Js.isWhiteSpace c' = Js.isWhiteSpace c
  /\ (if ((65 <=? c') && (c' <=? 90))%N then (c' + 32)%N else c') = c'.
Proof.
  simpl. destruct ((65 <=? c) && (c <=? 90))%N eqn:Hc.
  - apply andb_true_iff in Hc as [Hlo Hhi]. apply N.leb_le in Hlo, Hhi. split.
    + destruct (Js.isWhiteSpace (c + 32)) eqn:H1; destruct (Js.isWhiteSpace c) eqn:H2;
        try done.
      * apply isWhiteSpace_true in H1. lia.
      * apply isWhiteSpace_true in H2. lia.
    + destruct ((65 <=? c + 32) && (c + 32 <=? 90))%N eqn:Hc'; [|done].
      apply andb_true_iff in Hc' as [_ Hhi']. apply N.leb_le in Hhi'. lia.
  - by rewrite Hc.
Qed.

Lemma sample_lower_idempotent s : toLowerCase (toLowerCase s) = toLowerCase s.
Proof.
  simpl. unfold sampleToLowerCase. rewrite map_map. apply map_ext. intros c.
  apply (sample_lower_unit c).
Qed.

Lemma sample_lower_token s : token s -> token (toLowerCase s).
Proof.
  simpl. unfold sampleToLowerCase. intros [Hne Hclean]. split; [by destruct s|].
  apply Forall_fmap. eapply Forall_impl; [exact Hclean|]. intros c Hc. simpl.
  destruct (sample_lower_unit c) as [Hws _]. simpl in Hws. by rewrite Hws.
Qed.

Lemma sample_french_canonical w :
  w ∈ getWordList (Some french) -> token w /\ toLowerCase w = w.
Proof.
  intros Hw. simpl in Hw.
  repeat (apply elem_of_cons in Hw as [->|Hw]);
    [| | |by apply elem_of_nil in Hw];
    (split; [split; [discriminate|repeat constructor]|reflexivity]).
Qed.

Lemma sampleSpots_wellFormed : wellFormed sampleSpots.
Proof. split; [repeat constructor; set_solver|repeat constructor; simpl; lia]. Qed.

Lemma splitMnemonic_joinMnemonic_witness :
  splitMnemonic (joinMnemonic [utf16 "cat"; utf16 "dog"] (Some japanese))
  = [utf16 "cat"; utf16 "dog"].
Proof.
  apply (splitMnemonic_joinMnemonic [utf16 "cat"; utf16 "dog"] (Some japanese)).
  - discriminate.
  - repeat constructor; discriminate.
Defined.

Lemma normalizeMnemonic_idempotent_witness :
  normalizeMnemonic (normalizeMnemonic (utf16 " COTE   Chat ") (Some french)) (Some french)
  = normalizeMnemonic (utf16 " COTE   Chat ") (Some french).
Proof.
  apply (normalizeMnemonic_idempotent french
           sample_lower_idempotent sample_lower_token eq_refl sample_french_canonical).
Defined.

Lemma detectLanguage_strict_winner_witness :
  1 <= length (filter (fun w => w ∈ getWordList (Some english))
                 [utf16 "cat"; utf16 "chat"; utf16 "dog"]).
Proof.
  apply (proj1 (proj1 (detectLanguage_strict_winner
                         [utf16 "cat"; utf16 "chat"; utf16 "dog"] None english
                         getAllLanguages_NoDup))).
  by vm_compute.
Defined.

Lemma detectLanguage_monolingual_witness :
  detectLanguage [utf16 "gato"] (Some [spanish; spanish; portuguese]) = None.
Proof.
  apply (proj2 (detectLanguage_monolingual [utf16 "gato"]
                  (Some [spanish; spanish; portuguese]) spanish
                  ltac:(left)
                  ltac:(discriminate)
                  ltac:(repeat constructor))
               portuguese ltac:(right; right; left)
               ltac:(discriminate)).
  repeat constructor.
Defined.

Lemma detectLanguage_token_order_witness :
  detectLanguage [utf16 "cat"; utf16 "chat"; utf16 "dog"] None
  = detectLanguage [utf16 "chat"; utf16 "cat"; utf16 "dog"] None.
Proof. apply detectLanguage_token_order. apply perm_swap. Defined.

Lemma detectLanguage_unknown_tokens_witness :
  detectLanguage ([utf16 "cat"; utf16 "dog"] ++ [utf16 "dig"]) None
  = detectLanguage [utf16 "cat"; utf16 "dog"] None.
Proof.
  apply detectLanguage_unknown_tokens. constructor; [|constructor].
  intros c _. apply (bool_decide_unpack _). by destruct c; vm_compute.
Defined.

Lemma detectLanguage_candidate_order_witness :
  detectLanguage [utf16 "gato"] (Some [spanish; italian])
  = detectLanguage [utf16 "gato"] (Some [italian; spanish]).
Proof.
  apply detectLanguage_candidate_order; [|apply perm_swap].
  repeat constructor; set_solver.
Defined.

Lemma combineSuggestions_unsorted_throws_witness :
  threw
    (combineSuggestions
       [(0, [ {| distance := 3; word := utf16 "dog" |};
              {| distance := 1; word := utf16 "cot" |} ]);
        (1, [ {| distance := 1; word := utf16 "dog" |} ])]
       (Finite 0) Infinity) = true.
Proof.
  apply (combineSuggestions_unsorted_throws 0 _ _ (Finite 0) Infinity []
           {| distance := 3; word := utf16 "dog" |}
           {| distance := 1; word := utf16 "cot" |} []);
    [discriminate|reflexivity|reflexivity|reflexivity|simpl; lia].
Defined.

Lemma combineSuggestions_covers_witness :
  threw (combineSuggestions sampleSpots (Finite 0) Infinity) = false.
Proof.
  apply (combineSuggestions_covers sampleSpots (Finite 0) Infinity);
    [discriminate|apply sampleSpots_wellFormed|reflexivity|reflexivity].
Defined.

Lemma combineSuggestions_tie_dead_witness :
  combineSuggestions
    [(0, [ {| distance := 1; word := utf16 "cat" |};
           {| distance := 1; word := utf16 "cot" |} ]);
     (1, [ {| distance := 0; word := utf16 "dog" |} ])]
    (Finite 0) Infinity
  = combineSuggestions
      [(0, [ {| distance := 1; word := utf16 "cot" |} ]);
       (1, [ {| distance := 0; word := utf16 "dog" |} ])]
      (Finite 0) Infinity.
Proof.
  apply (combineSuggestions_tie_dead 0 []
           {| distance := 1; word := utf16 "cat" |}
           {| distance := 1; word := utf16 "cot" |} []).
  - split; [repeat constructor; set_solver|repeat constructor; simpl; lia].
  - discriminate.
  - reflexivity.
Defined.

Lemma combineSuggestions_two_positions_witness :
  combineSuggestions sampleSpots (Finite 0) Infinity
  = mkGen [ [(0, utf16 "cot"); (1, utf16 "dog")];
            [(0, utf16 "dog"); (1, utf16 "dog")];
            [(0, utf16 "dog"); (1, utf16 "cat")];
            [(0, utf16 "dog"); (1, utf16 "cot")] ] false.
Proof.
  eapply eq_trans;
    [exact (combineSuggestions_two_positions _ _ _ _ sampleSpots_wellFormed)|].
  by vm_compute.
Defined.

End Samples2.
